(** * argparse.h: a shallow embedding of the ArgumentParser library

    The development follows the layout of [argparse.h]:
    - [Regex]: the fragment of [std::regex] used by the three naming rules
      ([flag_rule], [optional_rule], [positional_rule]) with [regex_match];
    - [Cxx]: the standard-library conversions the header calls
      ([std::stoi], [std::stod]) and the two implicit conversions between
      [double] and [int] that the header triggers;
    - [ParseTraits], [TokenParser]: the per-type conversion strategies;
    - [ArgumentParser]: the registries and the four member functions.

    Caller-owned variables bound by reference ([bool&], [T&]) live in an
    explicit store; a reference is the address of a cell of that store. *)

From Stdlib Require Import ZArith String Ascii List Bool Lia.
From Stdlib Require Import Floats.SpecFloat.
From stdpp Require Import base option gmap strings.

Local Open Scope string_scope.
Local Open Scope Z_scope.

(* ===================================================================== *)
(** * Regular expressions: the fragment of [std::regex] the header uses   *)
(* ===================================================================== *)

Module Regex.

(** An item of a bracket expression: a single character or a range. *)
Inductive class_item : Type :=
| One (c : ascii)
| Range (lo hi : ascii).

Inductive regex : Type :=
| Void                                   (* matches nothing (derivatives only) *)
| Eps                                    (* matches the empty string *)
| Chr (c : ascii)                        (* an ordinary character *)
| Bracket (items : list class_item)      (* [...] *)
| Cat (r1 r2 : regex)                    (* r1 r2 *)
| Alt (r1 r2 : regex)                    (* r1 | r2 *)
| Star (r : regex)                       (* r* *)
| Plus (r : regex).                      (* r+ *)

Definition in_item (c : ascii) (i : class_item) : bool :=
  match i with
  | One c' => Ascii.eqb c c'
  | Range lo hi =>
      (N_of_ascii lo <=? N_of_ascii c)%N && (N_of_ascii c <=? N_of_ascii hi)%N
  end.

Definition in_class (c : ascii) (items : list class_item) : bool :=
  existsb (in_item c) items.

Fixpoint nullable (r : regex) : bool :=
  match r with
  | Void => false
  | Eps => true
  | Chr _ => false
  | Bracket _ => false
  | Cat r1 r2 => nullable r1 && nullable r2
  | Alt r1 r2 => nullable r1 || nullable r2
  | Star _ => true
  | Plus r => nullable r
  end.

(** Brzozowski derivative of [r] by the character [c]. *)
Fixpoint deriv (c : ascii) (r : regex) : regex :=
  match r with
  | Void => Void
  | Eps => Void
  | Chr c' => if Ascii.eqb c c' then Eps else Void
  | Bracket items => if in_class c items then Eps else Void
  | Cat r1 r2 =>
      if nullable r1
      then Alt (Cat (deriv c r1) r2) (deriv c r2)
      else Cat (deriv c r1) r2
  | Alt r1 r2 => Alt (deriv c r1) (deriv c r2)
  | Star r => Cat (deriv c r) (Star r)
  | Plus r => Cat (deriv c r) (Star r)
  end.

(** [std::regex_match(s, r)]: the WHOLE of [s] must match [r]. *)
Fixpoint regex_match (s : string) (r : regex) : bool :=
  match s with
  | EmptyString => nullable r
  | String c s' => regex_match s' (deriv c r)
  end.

(** The language of a regular expression, as a relation. *)
Inductive matches : regex -> string -> Prop :=
| MEps : matches Eps EmptyString
| MChr c : matches (Chr c) (String c EmptyString)
| MBracket c items :
    in_class c items = true -> matches (Bracket items) (String c EmptyString)
| MCat r1 r2 s1 s2 :
    matches r1 s1 -> matches r2 s2 -> matches (Cat r1 r2) (s1 ++ s2)
| MAltL r1 r2 s : matches r1 s -> matches (Alt r1 r2) s
| MAltR r1 r2 s : matches r2 s -> matches (Alt r1 r2) s
| MStar0 r : matches (Star r) EmptyString
| MStarS r s1 s2 :
    matches r s1 -> matches (Star r) s2 -> matches (Star r) (s1 ++ s2)
| MPlus r s1 s2 :
    matches r s1 -> matches (Star r) s2 -> matches (Plus r) (s1 ++ s2).

End Regex.

Import Regex.

(** [const std::regex flag_rule = std::regex("-[\-a-zA-Z]+");]
    The escape [\-] inside the literal denotes the dash itself, so the
    bracket expression holds the dash and the two letter ranges. *)
Definition flag_class : list class_item :=
  [One "-"%char; Range "a"%char "z"%char; Range "A"%char "Z"%char].

Definition flag_rule : regex := Cat (Chr "-"%char) (Plus (Bracket flag_class)).

(** [const std::regex optional_rule = flag_rule;] *)
Definition optional_rule : regex := flag_rule.

(** Modelled from the spec: [add_option] tests its name against an identifier
    [option_rule] that the header never declares (the declared constant is
    [optional_rule]).  The spec gives one grammar, [-[-a-zA-Z]+], for flag
    and option names alike, which is what [optional_rule] holds. *)
Definition option_rule : regex := optional_rule.

(** [const std::regex positional_rule = std::regex("[_a-zA-Z][_a-zA-Z0-9]*");] *)
Definition ident_head_class : list class_item :=
  [One "_"%char; Range "a"%char "z"%char; Range "A"%char "Z"%char].

Definition ident_tail_class : list class_item :=
  [One "_"%char; Range "a"%char "z"%char; Range "A"%char "Z"%char;
   Range "0"%char "9"%char].

Definition positional_rule : regex :=
  Cat (Bracket ident_head_class) (Star (Bracket ident_tail_class)).

(* ===================================================================== *)
(** * The C++ standard-library conversions the header relies on          *)
(* ===================================================================== *)

Module Cxx.

(** The two exceptions [std::stoi] and [std::stod] throw; both derive from
    [std::exception], which is what the header catches. *)
Inductive exception : Type := invalid_argument | out_of_range.

Inductive result (A : Type) : Type :=
| Ok (a : A)
| Throw (e : exception).
Arguments Ok {A} a.
Arguments Throw {A} e.

(** What an expression evaluates to: a value, or nothing the language
    defines (a conversion whose result the target type cannot hold). *)
Inductive outcome (A : Type) : Type :=
| Returns (a : A)
| Undefined.
Arguments Returns {A} a.
Arguments Undefined {A}.

(** [int] is a 32-bit two's complement integer; [double] is IEEE binary64. *)
Definition int : Type := Z.
Definition INT_MIN : Z := - 2 ^ 31.
Definition INT_MAX : Z := 2 ^ 31 - 1.
Definition in_int_range (z : Z) : bool := (INT_MIN <=? z) && (z <=? INT_MAX).

Definition double : Type := spec_float.
Definition prec : Z := 53.
Definition emax : Z := 1024.

(** ** Character classes of the "C" locale *)

Definition code (c : ascii) : N := N_of_ascii c.

Definition isspace (c : ascii) : bool :=
  (code c =? 32)%N || ((9 <=? code c)%N && (code c <=? 13)%N).

Definition isdigit (c : ascii) : bool :=
  (48 <=? code c)%N && (code c <=? 57)%N.

Definition isxdigit (c : ascii) : bool :=
  isdigit c
  || ((97 <=? code c)%N && (code c <=? 102)%N)
  || ((65 <=? code c)%N && (code c <=? 70)%N).

Definition tolower (c : ascii) : ascii :=
  if (65 <=? code c)%N && (code c <=? 90)%N
  then ascii_of_N (code c + 32) else c.

Definition digit_value (c : ascii) : Z := Z.of_N (code c) - 48.

Definition xdigit_value (c : ascii) : Z :=
  if isdigit c then Z.of_N (code c) - 48
  else Z.of_N (code (tolower c)) - 87.

(** ** Scanning *)

Fixpoint skip_space (s : string) : string :=
  match s with
  | String c s' => if isspace c then skip_space s' else s
  | EmptyString => s
  end.

(** An optional sign: [(negative, rest)]. *)
Definition take_sign (s : string) : bool * string :=
  match s with
  | String c s' =>
      if Ascii.eqb c "-" then (true, s')
      else if Ascii.eqb c "+" then (false, s')
      else (false, s)
  | EmptyString => (false, s)
  end.

(** Longest prefix whose characters all satisfy [p], and what follows. *)
Fixpoint span (p : ascii -> bool) (s : string) : string * string :=
  match s with
  | String c s' =>
      if p c then let '(a, b) := span p s' in (String c a, b)
      else (EmptyString, s)
  | EmptyString => (EmptyString, EmptyString)
  end.

(** Value of a digit string in base [b], most significant digit first. *)
Fixpoint number_from (b : Z) (dv : ascii -> Z) (acc : Z) (s : string) : Z :=
  match s with
  | String c s' => number_from b dv (b * acc + dv c) s'
  | EmptyString => acc
  end.

Definition decimal (s : string) : Z := number_from 10 digit_value 0 s.
Definition hexadecimal (s : string) : Z := number_from 16 xdigit_value 0 s.

Definition negate_if (neg : bool) (z : Z) : Z := if neg then - z else z.

(** ** [std::stoi(str)] with the default [pos = nullptr, base = 10]

    [strtol] skips white space, reads an optional sign and the longest
    run of decimal digits, and stops there: what follows the digits is
    not looked at.  No digit: [std::invalid_argument].  A value outside
    [int]: [std::out_of_range]. *)
Definition stoi (str : string) : result int :=
  let '(neg, s) := take_sign (skip_space str) in
  let '(ds, _) := span isdigit s in
  match ds with
  | EmptyString => Throw invalid_argument
  | _ =>
      let v := negate_if neg (decimal ds) in
      if in_int_range v then Ok v else Throw out_of_range
  end.

(** ** [std::stod(str)] with the default [pos = nullptr] *)

(** Case-insensitive test that [s] starts with the lower-case word [kw]. *)
Fixpoint starts_with_nocase (kw s : string) : bool :=
  match kw, s with
  | EmptyString, _ => true
  | String k kw', String c s' =>
      Ascii.eqb k (tolower c) && starts_with_nocase kw' s'
  | String _ _, EmptyString => false
  end.

(** The digits around an optional radix point: [(integer part, fraction,
    rest)]. *)
Definition take_mantissa (p : ascii -> bool) (s : string)
  : string * string * string :=
  let '(ip, r1) := span p s in
  match r1 with
  | String c r1' =>
      if Ascii.eqb c "." then let '(fp, r2) := span p r1' in (ip, fp, r2)
      else (ip, EmptyString, r1)
  | EmptyString => (ip, EmptyString, r1)
  end.

(** An optional exponent part introduced by [mark] (lower case): the
    marker, an optional sign and at least one decimal digit; without a
    digit there is no exponent part at all. *)
Definition take_exponent (mark : ascii) (s : string) : Z :=
  match s with
  | String c s' =>
      if Ascii.eqb (tolower c) mark then
        let '(neg, s'') := take_sign s' in
        let '(ds, _) := span isdigit s'' in
        match ds with
        | EmptyString => 0
        | _ => negate_if neg (decimal ds)
        end
      else 0
  | EmptyString => 0
  end.

Definition strlen (s : string) : Z := Z.of_nat (String.length s).

(** Round [m * 2^e] to the nearest [double], ties to even. *)
Definition round_binary (neg : bool) (m e : Z) : double :=
  match m with
  | Zpos p => binary_round prec emax neg p e
  | _ => S754_zero neg
  end.

(** Round [m * 10^e] to the nearest [double], ties to even. *)
Definition round_decimal (neg : bool) (m e : Z) : double :=
  match m with
  | Zpos p =>
      if 0 <=? e then binary_round prec emax neg (p * Z.to_pos (10 ^ e)) 0
      else SFdiv prec emax (S754_finite neg p 0)
                           (S754_finite false (Z.to_pos (10 ^ (- e))) 0)
  | _ => S754_zero neg
  end.

(** The rational [m1 * b1^e1] (the text) equals [m2 * 2^e2] (the double). *)
Definition same_value (b1 m1 e1 m2 e2 : Z) : bool :=
  (m1 * b1 ^ (Z.max e1 0) * 2 ^ (Z.max (- e2) 0)
   =? m2 * 2 ^ (Z.max e2 0) * b1 ^ (Z.max (- e1) 0)).

(** The number [m * b^e], with [m] positive, is tiny: rounded to 53 bits
    with no bound on the exponent it is still below the least normal
    [double], [2^-1022].  That is the case exactly below
    [2^-1022 - 2^-1076], the midpoint there going up to [2^-1022] as the
    even neighbour.  (glibc on x86 detects tininess after rounding.) *)
Definition tiny (b m e : Z) : bool :=
  (m * b ^ (Z.max e 0) * 2 ^ 1076 <? (2 ^ 54 - 1) * b ^ (Z.max (- e) 0)).

(** [errno == ERANGE] after [strtod]: the text denotes a non-zero number
    that overflows to an infinity, or that rounds to zero, or (as glibc
    reports it; the C standard leaves this case to the implementation) that
    is tiny and differs from the [double] it is rounded to. *)
Definition range_error (b m e : Z) (d : double) : bool :=
  match m, d with
  | Zpos _, S754_infinity _ => true
  | Zpos _, S754_zero _ => true
  | Zpos _, S754_finite _ dm de =>
      tiny b m e && negb (same_value b m e (Zpos dm) de)
  | _, _ => false
  end.

Inductive literal : Type :=
| LInf
| LNan
| LHex (m e : Z)          (* m * 2^e *)
| LDec (m e : Z)          (* m * 10^e *)
| LNone.

(** The subject sequence of [strtod] after white space and sign. *)
Definition scan_literal (s : string) : literal :=
  if starts_with_nocase "inf" s then LInf
  else if starts_with_nocase "nan" s then LNan
  else
    let dec :=
      let '(ip, fp, r) := take_mantissa isdigit s in
      match (ip ++ fp)%string with
      | EmptyString => LNone
      | ds => LDec (decimal ds) (take_exponent "e" r - strlen fp)
      end in
    if starts_with_nocase "0x" s then
      let '(ip, fp, r) := take_mantissa isxdigit (substring 2 (String.length s - 2) s) in
      match (ip ++ fp)%string with
      | EmptyString => dec
      | ds => LHex (hexadecimal ds) (take_exponent "p" r - 4 * strlen fp)
      end
    else dec.

Definition stod (str : string) : result double :=
  let '(neg, s) := take_sign (skip_space str) in
  match scan_literal s with
  | LInf => Ok (S754_infinity neg)
  | LNan => Ok S754_nan
  | LHex m e =>
      let d := round_binary neg m e in
      if range_error 2 m e d then Throw out_of_range else Ok d
  | LDec m e =>
      let d := round_decimal neg m e in
      if range_error 10 m e d then Throw out_of_range else Ok d
  | LNone => Throw invalid_argument
  end.

(** ** Implicit conversions between [double] and [int] *)

(** [double] to [int]: the fractional part is discarded; the behaviour is
    undefined when the truncated value does not fit (infinities and NaN
    included). *)
Definition double_to_int (d : double) : outcome int :=
  match d with
  | S754_zero _ => Returns 0
  | S754_finite s m e =>
      let t := if 0 <=? e then Zpos m * 2 ^ e else Zpos m / 2 ^ (- e) in
      let v := negate_if s t in
      if in_int_range v then Returns v else Undefined
  | S754_infinity _ => Undefined
  | S754_nan => Undefined
  end.

(** [int] to [double]: exact, every 32-bit integer is a [double]. *)
Definition int_to_double (z : int) : double :=
  binary_normalize prec emax z 0 false.

End Cxx.

Import Cxx.

(* ===================================================================== *)
(** * Caller-owned storage cells                                          *)
(* ===================================================================== *)

(** The parser never owns the variables it is bound to: [bool& ref] and
    [T& ref] are addresses of cells that belong to the caller. *)
Definition loc : Type := nat.

Inductive value : Type :=
| VBool (b : bool)
| VInt (z : int)
| VDouble (d : double)
| VString (s : string).

Abbreviation store := (gmap loc value).

(** A reference to a cell holding a [T]; the type is kept for the template
    argument it fixes. *)
Record ref (T : Type) : Type := Ref { addr : loc }.
Arguments Ref {T} addr.
Arguments addr {T} r.

Class Storable (T : Type) : Type := to_value : T -> value.
#[export] Instance Storable_bool : Storable bool := VBool.
#[export] Instance Storable_int : Storable int := VInt.
#[export] Instance Storable_double : Storable double := VDouble.
#[export] Instance Storable_string : Storable string := VString.

(** The assignment [m_ref = *result] converts the parsed value to [T]. *)
Class Assignable (From To : Type) : Type := assign : From -> To.
#[export] Instance Assignable_same (T : Type) : Assignable T T := fun x => x.
#[export] Instance Assignable_int_double : Assignable int double := int_to_double.

(* ===================================================================== *)
(** * [ParseTraits<T>]: the per-type conversion strategy                  *)
(* ===================================================================== *)

(** [template <typename T> struct ParseTraits { static std::optional<T>
    parse(const std::string& s); };]
    A specialisation is free to pick the type its [optional] holds, and the
    one for [double] does: [parsed] records that type. *)
Class ParseTraits (T : Type) : Type := {
  parsed : Type;
  parse : string -> outcome (option parsed)
}.

(** [ParseTraits<int>::parse]:
    [try { return std::stoi(s); } catch (std::exception const&) { return std::nullopt; }] *)
Definition ParseTraits_int_parse (s : string) : outcome (option int) :=
  match stoi s with
  | Ok v => Returns (Some v)
  | Throw _ => Returns None
  end.

(** [ParseTraits<double>::parse], declared as
    [static std::optional<int> parse(const std::string& s)]:
    [try { return std::stod(s); } catch (std::exception const&) { return std::nullopt; }]
    The [double] that [std::stod] yields is converted to the [int] the
    returned [optional] holds. *)
Definition ParseTraits_double_parse (s : string) : outcome (option int) :=
  match stod s with
  | Ok d =>
      match double_to_int d with
      | Returns z => Returns (Some z)
      | Undefined => Undefined
      end
  | Throw _ => Returns None
  end.

(** [ParseTraits<std::string>::parse]: [return s;] *)
Definition ParseTraits_string_parse (s : string) : outcome (option string) :=
  Returns (Some s).

#[export] Instance ParseTraits_int : ParseTraits int :=
  {| parsed := int; parse := ParseTraits_int_parse |}.
#[export] Instance ParseTraits_double : ParseTraits double :=
  {| parsed := int; parse := ParseTraits_double_parse |}.
#[export] Instance ParseTraits_string : ParseTraits string :=
  {| parsed := string; parse := ParseTraits_string_parse |}.

(* ===================================================================== *)
(** * [ITokenParser] and [TokenParser<T>]                                 *)
(* ===================================================================== *)

(** [class ITokenParser { virtual bool parse(const std::string& input) = 0; };]
    The call may write the bound cell, so it maps a store to a store. *)
Record ITokenParser : Type := mkITokenParser {
  ITokenParser_parse : string -> store -> outcome (bool * store)
}.

(** [template <typename T> class TokenParser : public ITokenParser] with its
    one member [T& m_ref]. *)
Record TokenParser (T : Type) : Type := mkTokenParser { m_ref : ref T }.
Arguments mkTokenParser {T} m_ref.
Arguments m_ref {T} t.

(** [TokenParser<T>::parse]:
    [const auto result = ParseTraits<T>::parse(input);
     if (result) { m_ref = *result; return true; }
     return false;] *)
Definition TokenParser_parse {T : Type} {PT : ParseTraits T}
    {AS : Assignable (@parsed T PT) T} {ST : Storable T}
    (this : TokenParser T) (input : string) (h : store)
  : outcome (bool * store) :=
  match parse input with
  | Returns (Some result) =>
      Returns (true, <[addr (m_ref this) := to_value (assign result : T)]> h)
  | Returns None => Returns (false, h)
  | Undefined => Undefined
  end.

Definition as_ITokenParser {T : Type} {PT : ParseTraits T}
    {AS : Assignable (@parsed T PT) T} {ST : Storable T}
    (tp : TokenParser T) : ITokenParser :=
  mkITokenParser (TokenParser_parse tp).

(* ===================================================================== *)
(** * [ArgumentParser]                                                    *)
(* ===================================================================== *)

Record ArgumentParser : Type := mkArgumentParser {
  m_program_name : string;
  m_program_description : string;
  m_flags_dict : gmap string (ref bool);
  m_optionals_dict : gmap string ITokenParser;
  (* positional arguments don't need a lookup.
     this set only handles name collisions *)
  m_positional_dict : gset string;
  m_positional_vect : list ITokenParser
}.

(** The constructor initialises the two names; the four containers start
    empty. *)
Definition ArgumentParser_new (program_name program_description : string)
  : ArgumentParser :=
  {| m_program_name := program_name;
     m_program_description := program_description;
     m_flags_dict := ∅;
     m_optionals_dict := ∅;
     m_positional_dict := ∅;
     m_positional_vect := [] |}.

(** What a call of a registration function leaves behind: the parser, the
    value of the [return] statement that ended the call ([None] when control
    reached the closing brace of the body without meeting one, in which case
    the caller receives no defined value), and the lines sent to
    [std::cerr]. *)
Record call_result : Type := mkCall {
  after : ArgumentParser;
  returned : option bool;
  cerr : list string
}.

Definition newline : string := String (ascii_of_nat 10) EmptyString.

(** [std::format(fmt, arg)] for a format string with one [{}]. *)
Fixpoint format (fmt arg : string) : string :=
  match fmt with
  | String "{" (String "}" rest) => (arg ++ rest)%string
  | String c rest => String c (format rest arg)
  | EmptyString => EmptyString
  end.

Definition flag_name_error : string :=
  "[ERROR]: `{}` is not an appropriate flag name" ++ newline.
Definition option_name_error : string :=
  "[ERROR]: `{}` is not an appropriate option name" ++ newline.
Definition positional_name_error : string :=
  "[ERROR]: `{}` is not an appropriate positional name, must be an identifier"
  ++ newline.
Definition already_registered_error : string :=
  "[ERROR]: `{}` has been already registered" ++ newline.
Definition positional_registered_error : string :=
  "[ERROR]: another positional with name `{}` has already been registered"
  ++ newline.

(** [m.contains(key)] *)
Definition contains {V : Type} (m : gmap string V) (key : string) : bool :=
  bool_decide (is_Some (m !! key)).

Definition set_contains (s : gset string) (key : string) : bool :=
  bool_decide (key ∈ s).

(** [bool ArgumentParser::add_flag(const std::string& argument_name, bool& ref)]
    The body ends with [m_flags_dict[argument_name] = ref;] and no [return]. *)
Definition add_flag (argument_name : string) (r : ref bool)
    (this : ArgumentParser) : call_result :=
  if negb (regex_match argument_name flag_rule) then
    mkCall this (Some false) [format flag_name_error argument_name]
  else if contains (m_flags_dict this) argument_name
          || contains (m_optionals_dict this) argument_name then
    mkCall this (Some false) [format already_registered_error argument_name]
  else
    mkCall
      {| m_program_name := m_program_name this;
         m_program_description := m_program_description this;
         m_flags_dict := <[argument_name := r]> (m_flags_dict this);
         m_optionals_dict := m_optionals_dict this;
         m_positional_dict := m_positional_dict this;
         m_positional_vect := m_positional_vect this |}
      None [].

(** [template <typename T> bool ArgumentParser::add_option(const std::string&
    argument_name, T& ref)].  After the two checks the body holds only
    [// TODO: add parser to dictionary]. *)
Definition add_option {T : Type} (argument_name : string) (r : ref T)
    (this : ArgumentParser) : call_result :=
  if negb (regex_match argument_name option_rule) then
    mkCall this (Some false) [format option_name_error argument_name]
  else if contains (m_flags_dict this) argument_name
          || contains (m_optionals_dict this) argument_name then
    mkCall this (Some false) [format already_registered_error argument_name]
  else
    mkCall this None [].

(** [template <typename T> bool ArgumentParser::add_positional(const
    std::string& argument_name, T& ref)].  The first test is written
    [nor std::regex_match(...)] in the header and is read as [not].  After
    [m_positional_dict.insert(argument_name);] the body holds only
    [// TODO: add parser to vector of parsers]. *)
Definition add_positional {T : Type} (argument_name : string) (r : ref T)
    (this : ArgumentParser) : call_result :=
  if negb (regex_match argument_name positional_rule) then
    mkCall this (Some false) [format positional_name_error argument_name]
  else if set_contains (m_positional_dict this) argument_name then
    mkCall this (Some false) [format positional_registered_error argument_name]
  else
    mkCall
      {| m_program_name := m_program_name this;
         m_program_description := m_program_description this;
         m_flags_dict := m_flags_dict this;
         m_optionals_dict := m_optionals_dict this;
         m_positional_dict := {[argument_name]} ∪ m_positional_dict this;
         m_positional_vect := m_positional_vect this |}
      None [].

(** [bool ArgumentParser::parse_args(int argc, char* argv[]) { return false; }]
    The result pairs the returned value with the store the call leaves. *)
Definition parse_args (argc : int) (argv : list string)
    (this : ArgumentParser) (h : store) : bool * store :=
  (false, h).

(* ===================================================================== *)
(** * Clients: sequences of registration calls                            *)
(* ===================================================================== *)

(** One registration call of a client program, with its arguments. *)
Inductive registration : Type :=
| RegFlag (name : string) (r : ref bool)
| RegOption {T : Type} (name : string) (r : ref T)
| RegPositional {T : Type} (name : string) (r : ref T).

Definition register (c : registration) (this : ArgumentParser) : call_result :=
  match c with
  | RegFlag name r => add_flag name r this
  | RegOption name r => add_option name r this
  | RegPositional name r => add_positional name r this
  end.

(** The parser after a client has issued the calls [cs] in order. *)
Definition register_all (cs : list registration) (this : ArgumentParser)
  : ArgumentParser :=
  fold_left (fun p c => after (register c p)) cs this.

Definition registration_name (c : registration) : string :=
  match c with
  | RegFlag name _ => name
  | RegOption name _ => name
  | RegPositional name _ => name
  end.

Definition is_positional (c : registration) : bool :=
  match c with
  | RegPositional _ _ => true
  | _ => false
  end.

(** The client of the first end-to-end scenario: three caller variables
    [v], [c], [n], bound in this order to the flag [--verbose], the option
    [--count] and the positional [name]. *)
Module Scenario.
Definition v : ref bool := Ref 0%nat.
Definition c : ref int := Ref 1%nat.
Definition n : ref string := Ref 2%nat.

Definition calls : list registration :=
  [RegFlag "--verbose" v; RegOption "--count" c; RegPositional "name" n].

(** The parser as its constructor leaves it, and after the three calls. *)
Definition fresh : ArgumentParser := ArgumentParser_new "prog" EmptyString.

Definition parser : ArgumentParser := register_all calls fresh.

(** The variables before the call: [v] false, [c] zero, [n] empty. *)
Definition cells : store :=
  <[addr v := VBool false]> (<[addr c := VInt 0]> (<[addr n := VString EmptyString]> ∅)).

Definition tokens : list string := ["--verbose"; "--count"; "5"; "alice"].

(** The call of [parse_args] on the tokens, with the variables as above. *)
Definition run (argc : int) : bool * store :=
  parse_args argc tokens parser cells.
End Scenario.

(* ===================================================================== *)
(** * The grammars and literals in the words of the specification         *)
(* ===================================================================== *)

Fixpoint string_forall (p : ascii -> bool) (s : string) : bool :=
  match s with
  | String c s' => p c && string_forall p s'
  | EmptyString => true
  end.

Definition is_empty (s : string) : bool :=
  match s with
  | EmptyString => true
  | String _ _ => false
  end.

Definition is_letter (c : ascii) : bool :=
  ((97 <=? code c)%N && (code c <=? 122)%N)
  || ((65 <=? code c)%N && (code c <=? 90)%N).

Definition is_dash (c : ascii) : bool := Ascii.eqb c "-".
Definition is_underscore (c : ascii) : bool := Ascii.eqb c "_".

(** A dash, then one or more characters that are letters or dashes. *)
Definition is_flag_name (s : string) : bool :=
  match s with
  | String c t =>
      is_dash c && negb (is_empty t)
      && string_forall (fun x => is_dash x || is_letter x) t
  | EmptyString => false
  end.

(** A letter or underscore, then letters, digits and underscores. *)
Definition is_identifier (s : string) : bool :=
  match s with
  | String c t =>
      (is_underscore c || is_letter c)
      && string_forall (fun x => is_underscore x || is_letter x || isdigit x) t
  | EmptyString => false
  end.

(** An optional sign: the empty string, ["+"] or ["-"]. *)
Definition is_sign (s : string) : bool :=
  match s with
  | EmptyString => true
  | String c EmptyString => Ascii.eqb c "-" || Ascii.eqb c "+"
  | _ => false
  end.

(** The text does not go on with a character satisfying [p]. *)
Definition stops (p : ascii -> bool) (s : string) : bool :=
  match s with
  | String c _ => negb (p c)
  | EmptyString => true
  end.

(** The value an optionally signed decimal literal denotes. *)
Definition literal_value (sgn ds : string) : Z :=
  negate_if (String.eqb sgn "-") (decimal ds).

(** [s] reads, after optional white space, an optionally signed run of one
    or more decimal digits that denotes [v]; the run is taken as long as it
    goes, and what follows it is arbitrary. *)
Definition int_literal_prefix (s : string) (v : Z) : Prop :=
  exists ws sgn ds rest : string,
    s = (ws ++ sgn ++ ds ++ rest)%string
    /\ string_forall isspace ws = true
    /\ is_sign sgn = true
    /\ is_empty ds = false
    /\ string_forall isdigit ds = true
    /\ stops isdigit rest = true
    /\ v = literal_value sgn ds.

(** The text starts with what [strtod] accepts after white space and sign:
    a digit, a point followed by a digit, or, in any case of letters, [inf]
    or [nan]. *)
Definition starts_float_literal (t : string) : bool :=
  starts_with_nocase "inf" t
  || starts_with_nocase "nan" t
  || match t with
     | String c t' => isdigit c || (Ascii.eqb c "." && negb (stops isdigit t'))
     | EmptyString => false
     end.

(** The [double] nearest to 3.14, [0x1.91EB851EB851Fp+1]. *)
Definition double_3_14 : double := S754_finite false 7070651414971679 (-51).

(** Every name a registry holds obeys the grammar of its kind. *)
Definition well_named (p : ArgumentParser) : Prop :=
  (forall k : string, is_Some (m_flags_dict p !! k) -> is_flag_name k = true)
  /\ (forall k : string, k ∈ m_positional_dict p -> is_identifier k = true).

(** The cell given to the first [add_flag] call of [cs] made with [name]. *)
Fixpoint first_flag (cs : list registration) (name : string)
  : option (ref bool) :=
  match cs with
  | RegFlag n r :: cs' =>
      if String.eqb n name then Some r else first_flag cs' name
  | _ :: cs' => first_flag cs' name
  | [] => None
  end.

Definition is_option (c : registration) : bool :=
  match c with
  | RegOption _ _ => true
  | _ => false
  end.

(** The names given to the [add_positional] calls of [cs], in order. *)
Definition positional_names (cs : list registration) : list string :=
  map registration_name (List.filter is_positional cs).

(** The text does not go on as a floating literal would after its integer
    digits: no digit, no point, no exponent mark, no hexadecimal mark. *)
Definition ends_integer (rest : string) : bool :=
  stops (fun c => isdigit c || Ascii.eqb c "."
                  || Ascii.eqb (tolower c) "e" || Ascii.eqb (tolower c) "x")
        rest.

(* ===================================================================== *)
(** * The matcher decides the language of the expression                  *)
(* ===================================================================== *)

Section RegexFacts.

Lemma append_empty_inv (s1 s2 : string) :
  (s1 ++ s2)%string = EmptyString -> s1 = EmptyString /\ s2 = EmptyString.
Proof. destruct s1; simpl; intros E; [auto | discriminate]. Qed.

Lemma nullable_sound (r : regex) : nullable r = true -> matches r EmptyString.
Proof.
  induction r as [| | |items|r1 IH1 r2 IH2|r1 IH1 r2 IH2|r IH|r IH];
    simpl; intros N; try discriminate.
  - constructor.
  - apply andb_true_iff in N as [N1 N2].
    change EmptyString with (EmptyString ++ EmptyString)%string. constructor; auto.
  - apply orb_true_iff in N as [N1 | N2];
      [apply MAltL | apply MAltR]; auto.
  - constructor.
  - change EmptyString with (EmptyString ++ EmptyString)%string. constructor; [auto | constructor].
Qed.

Lemma nullable_complete (r : regex) (s : string) :
  matches r s -> s = EmptyString -> nullable r = true.
Proof.
  induction 1 as [ | | | q1 q2 t1 t2 _ IH1 _ IH2 | q1 q2 t _ IH
                 | q1 q2 t _ IH | | q t1 t2 _ _ _ _ | q t1 t2 _ IH1 _ _ ];
    simpl; intros E; try discriminate; auto.
  - apply append_empty_inv in E as [E1 E2].
    rewrite IH1, IH2; auto.
  - rewrite IH; auto.
  - rewrite IH; auto using orb_true_r.
  - apply append_empty_inv in E as [E1 _]. auto.
Qed.

Lemma deriv_sound (c : ascii) (r : regex) :
  forall s, matches (deriv c r) s -> matches r (String c s).
Proof.
  induction r as [| | c' |items|r1 IH1 r2 IH2|r1 IH1 r2 IH2|r IH|r IH];
    simpl; intros s M.
  - inversion M.
  - inversion M.
  - destruct (Ascii.eqb c c') eqn:E; inversion M; subst.
    apply Ascii.eqb_eq in E. subst. constructor.
  - destruct (in_class c items) eqn:E; inversion M; subst.
    constructor. exact E.
  - destruct (nullable r1) eqn:N.
    + inversion M as [ | | | | ? ? ? ML | ? ? ? MR | | | ]; subst.
      * inversion ML as [ | | | ? ? s1 s2 M1 M2 | | | | | ]; subst.
        change (String c (s1 ++ s2)) with (String c s1 ++ s2)%string.
        constructor; auto.
      * change (String c s) with (EmptyString ++ String c s)%string.
        constructor; auto using nullable_sound.
    + inversion M as [ | | | ? ? s1 s2 M1 M2 | | | | | ]; subst.
      change (String c (s1 ++ s2)) with (String c s1 ++ s2)%string.
      constructor; auto.
  - inversion M; subst; [apply MAltL | apply MAltR]; auto.
  - inversion M as [ | | | ? ? s1 s2 M1 M2 | | | | | ]; subst.
    change (String c (s1 ++ s2)) with (String c s1 ++ s2)%string.
    constructor; auto.
  - inversion M as [ | | | ? ? s1 s2 M1 M2 | | | | | ]; subst.
    change (String c (s1 ++ s2)) with (String c s1 ++ s2)%string.
    constructor; auto.
Qed.

Lemma deriv_complete (r : regex) (w : string) :
  matches r w ->
  forall c s, w = String c s -> matches (deriv c r) s.
Proof.
  induction 1 as [ | c' | c' items In | r1 r2 s1 s2 M1 IH1 M2 IH2
                 | r1 r2 t M IH | r1 r2 t M IH | q
                 | q s1 s2 M1 IH1 M2 IH2 | q s1 s2 M1 IH1 M2 IH2 ];
    intros c s E; simpl.
  - discriminate.
  - injection E as -> <-. rewrite Ascii.eqb_refl. constructor.
  - injection E as -> <-. rewrite In. constructor.
  - destruct s1 as [| a s1']; simpl in E.
    + rewrite (nullable_complete r1 EmptyString M1 eq_refl).
      apply MAltR. auto.
    + injection E as -> <-.
      destruct (nullable r1);
        [apply MAltL |]; constructor; auto.
  - apply MAltL. auto.
  - apply MAltR. auto.
  - discriminate.
  - destruct s1 as [| a s1']; simpl in E.
    + apply (IH2 c s E).
    + injection E as -> <-. constructor; auto.
  - destruct s1 as [| a s1']; simpl in E.
    + apply (IH2 c s E).
    + injection E as -> <-. constructor; auto.
Qed.

(** [regex_match] returns true exactly on the strings of the language. *)
Lemma regex_match_matches (s : string) :
  forall r, regex_match s r = true <-> matches r s.
Proof.
  induction s as [| c s IH]; intros r; simpl.
  - split; [apply nullable_sound | intros M; eapply nullable_complete; eauto].
  - rewrite IH. split; [apply deriv_sound |].
    intros M. eapply deriv_complete; eauto.
Qed.

Lemma string_forall_ext (p q : ascii -> bool) (s : string) :
  (forall c, p c = q c) -> string_forall p s = string_forall q s.
Proof. intros E. induction s as [| c s IH]; simpl; [| rewrite E, IH]; auto. Qed.

Lemma matches_bracket_inv (items : list class_item) (s : string) :
  matches (Bracket items) s ->
  exists c, s = String c EmptyString /\ in_class c items = true.
Proof. inversion 1; subst; eauto. Qed.

Lemma matches_star_bracket (items : list class_item) (t : string) :
  matches (Star (Bracket items)) t <->
  string_forall (fun c => in_class c items) t = true.
Proof.
  split.
  - remember (Star (Bracket items)) as r eqn:R. intros M.
    induction M as [ | | | | | | r' | r' s1 s2 M1 _ M2 IH2 | ];
      try discriminate; [reflexivity |].
    injection R as ->.
    apply matches_bracket_inv in M1 as (c & -> & In).
    change (string_forall (fun c => in_class c items) (String c s2) = true).
    simpl. rewrite In. auto.
  - induction t as [| c t IH]; simpl; intros F; [constructor |].
    apply andb_true_iff in F as [In F].
    change (String c t) with (String c EmptyString ++ t)%string.
    constructor; [constructor |]; auto.
Qed.

Lemma matches_plus_bracket (items : list class_item) (t : string) :
  matches (Plus (Bracket items)) t <->
  is_empty t = false /\ string_forall (fun c => in_class c items) t = true.
Proof.
  split.
  - inversion 1 as [ | | | | | | | | ? s1 s2 M1 M2 ]; subst.
    apply matches_bracket_inv in M1 as (c & -> & In).
    apply matches_star_bracket in M2.
    change (is_empty (String c s2) = false /\
            string_forall (fun c => in_class c items) (String c s2) = true).
    simpl. rewrite In. auto.
  - destruct t as [| c t]; simpl; intros [E F]; [discriminate |].
    apply andb_true_iff in F as [In F].
    change (String c t) with (String c EmptyString ++ t)%string.
    constructor; [constructor | apply matches_star_bracket]; auto.
Qed.

Lemma bool_eq_iff (a b : bool) : (a = true <-> b = true) -> a = b.
Proof.
  destruct a, b; intros [H1 H2]; try reflexivity.
  - symmetry. auto.
  - auto.
Qed.

Lemma in_flag_class (c : ascii) :
  in_class c flag_class = is_dash c || is_letter c.
Proof. destruct c as [[] [] [] [] [] [] [] []]; reflexivity. Qed.

Lemma in_ident_head_class (c : ascii) :
  in_class c ident_head_class = is_underscore c || is_letter c.
Proof. destruct c as [[] [] [] [] [] [] [] []]; reflexivity. Qed.

Lemma in_ident_tail_class (c : ascii) :
  in_class c ident_tail_class = is_underscore c || is_letter c || isdigit c.
Proof. destruct c as [[] [] [] [] [] [] [] []]; reflexivity. Qed.

(** [flag_rule] accepts exactly: a dash, then one or more letters or
    dashes. *)
Lemma flag_rule_grammar (s : string) :
  regex_match s flag_rule = is_flag_name s.
Proof.
  apply bool_eq_iff. rewrite regex_match_matches. unfold flag_rule. split.
  - inversion 1 as [ | | | ? ? s1 s2 M1 M2 | | | | | ]; subst.
    inversion M1; subst.
    apply matches_plus_bracket in M2 as [E F].
    change (is_flag_name (String "-" s2) = true).
    simpl. rewrite E. simpl.
    rewrite <- F. apply string_forall_ext. intros x.
    symmetry. apply in_flag_class.
  - destruct s as [| c t]; simpl; [discriminate |]. intros H.
    apply andb_true_iff in H as [H F].
    apply andb_true_iff in H as [D E].
    apply Ascii.eqb_eq in D. subst c.
    change (String "-" t) with (String "-" EmptyString ++ t)%string.
    constructor; [constructor |].
    apply matches_plus_bracket. split.
    + destruct (is_empty t); [discriminate | reflexivity].
    + rewrite <- F. apply string_forall_ext, in_flag_class.
Qed.

(** [positional_rule] accepts exactly the identifiers. *)
Lemma positional_rule_grammar (s : string) :
  regex_match s positional_rule = is_identifier s.
Proof.
  apply bool_eq_iff. rewrite regex_match_matches. unfold positional_rule.
  split.
  - inversion 1 as [ | | | ? ? s1 s2 M1 M2 | | | | | ]; subst.
    apply matches_bracket_inv in M1 as (c & -> & In).
    apply matches_star_bracket in M2.
    change (is_identifier (String c s2) = true).
    simpl. rewrite <- in_ident_head_class, In. simpl.
    rewrite <- M2. apply string_forall_ext. intros x.
    symmetry. apply in_ident_tail_class.
  - destruct s as [| c t]; simpl; [discriminate |]. intros H.
    apply andb_true_iff in H as [In F].
    change (String c t) with (String c EmptyString ++ t)%string.
    constructor.
    + constructor. rewrite in_ident_head_class. exact In.
    + apply matches_star_bracket. rewrite <- F.
      apply string_forall_ext, in_ident_tail_class.
Qed.

Lemma option_rule_grammar (s : string) :
  regex_match s option_rule = is_flag_name s.
Proof. apply flag_rule_grammar. Qed.

End RegexFacts.

(* ===================================================================== *)
(** * Registration                                                        *)
(* ===================================================================== *)

Section RegistrationFacts.

Context {T : Type}.
Implicit Types (name : string) (rb : ref bool) (r : ref T)
               (p : ArgumentParser).

Lemma contains_true {V : Type} (m : gmap string V) (key : string) :
  contains m key = true <-> is_Some (m !! key).
Proof. unfold contains. apply bool_decide_eq_true. Qed.

Lemma contains_false {V : Type} (m : gmap string V) (key : string) :
  contains m key = false <-> m !! key = None.
Proof.
  unfold contains. rewrite bool_decide_eq_false.
  rewrite eq_None_not_Some. reflexivity.
Qed.

Lemma taken_true p name :
  is_Some (m_flags_dict p !! name) \/ is_Some (m_optionals_dict p !! name) ->
  contains (m_flags_dict p) name || contains (m_optionals_dict p) name = true.
Proof.
  intros [H | H]; apply orb_true_iff; [left | right];
    apply contains_true; exact H.
Qed.

Lemma taken_false p name :
  m_flags_dict p !! name = None -> m_optionals_dict p !! name = None ->
  contains (m_flags_dict p) name || contains (m_optionals_dict p) name = false.
Proof.
  intros H1 H2. apply orb_false_iff. split; apply contains_false; assumption.
Qed.

(** The three ways [add_flag] ends. *)
Lemma add_flag_invalid name rb p :
  is_flag_name name = false ->
  add_flag name rb p = mkCall p (Some false) [format flag_name_error name].
Proof. intros V. unfold add_flag. rewrite flag_rule_grammar, V. reflexivity. Qed.

Lemma add_flag_duplicate name rb p :
  is_flag_name name = true ->
  is_Some (m_flags_dict p !! name) \/ is_Some (m_optionals_dict p !! name) ->
  add_flag name rb p
  = mkCall p (Some false) [format already_registered_error name].
Proof.
  intros V D. unfold add_flag.
  rewrite flag_rule_grammar, V, (taken_true _ _ D). reflexivity.
Qed.

Lemma add_flag_fresh name rb p :
  is_flag_name name = true ->
  m_flags_dict p !! name = None -> m_optionals_dict p !! name = None ->
  add_flag name rb p
  = mkCall {| m_program_name := m_program_name p;
              m_program_description := m_program_description p;
              m_flags_dict := <[name := rb]> (m_flags_dict p);
              m_optionals_dict := m_optionals_dict p;
              m_positional_dict := m_positional_dict p;
              m_positional_vect := m_positional_vect p |} None [].
Proof.
  intros V F O. unfold add_flag.
  rewrite flag_rule_grammar, V, (taken_false _ _ F O). reflexivity.
Qed.

(** The three ways [add_option] ends. *)
Lemma add_option_invalid name r p :
  is_flag_name name = false ->
  add_option name r p = mkCall p (Some false) [format option_name_error name].
Proof. intros V. unfold add_option. rewrite option_rule_grammar, V. reflexivity. Qed.

Lemma add_option_duplicate name r p :
  is_flag_name name = true ->
  is_Some (m_flags_dict p !! name) \/ is_Some (m_optionals_dict p !! name) ->
  add_option name r p
  = mkCall p (Some false) [format already_registered_error name].
Proof.
  intros V D. unfold add_option.
  rewrite option_rule_grammar, V, (taken_true _ _ D). reflexivity.
Qed.

Lemma add_option_fresh name r p :
  is_flag_name name = true ->
  m_flags_dict p !! name = None -> m_optionals_dict p !! name = None ->
  add_option name r p = mkCall p None [].
Proof.
  intros V F O. unfold add_option.
  rewrite option_rule_grammar, V, (taken_false _ _ F O). reflexivity.
Qed.

(** [add_option] leaves the parser as it found it, however it ends. *)
Lemma add_option_after name r p : after (add_option name r p) = p.
Proof.
  unfold add_option.
  destruct (negb (regex_match name option_rule)); [reflexivity |].
  destruct (contains (m_flags_dict p) name || contains (m_optionals_dict p) name);
    reflexivity.
Qed.

(** The three ways [add_positional] ends. *)
Lemma add_positional_invalid name r p :
  is_identifier name = false ->
  add_positional name r p
  = mkCall p (Some false) [format positional_name_error name].
Proof.
  intros V. unfold add_positional. rewrite positional_rule_grammar, V.
  reflexivity.
Qed.

Lemma add_positional_duplicate name r p :
  is_identifier name = true ->
  name ∈ m_positional_dict p ->
  add_positional name r p
  = mkCall p (Some false) [format positional_registered_error name].
Proof.
  intros V D. unfold add_positional, set_contains.
  rewrite positional_rule_grammar, V, (bool_decide_eq_true_2 _ D).
  reflexivity.
Qed.

Lemma add_positional_fresh name r p :
  is_identifier name = true ->
  name ∉ m_positional_dict p ->
  add_positional name r p
  = mkCall {| m_program_name := m_program_name p;
              m_program_description := m_program_description p;
              m_flags_dict := m_flags_dict p;
              m_optionals_dict := m_optionals_dict p;
              m_positional_dict := {[name]} ∪ m_positional_dict p;
              m_positional_vect := m_positional_vect p |} None [].
Proof.
  intros V F. unfold add_positional, set_contains.
  rewrite positional_rule_grammar, V, (bool_decide_eq_false_2 _ F).
  reflexivity.
Qed.

(** A call that did not return [false] took the last branch. *)
Lemma add_positional_accepted name r p :
  returned (add_positional name r p) <> Some false ->
  is_identifier name = true /\ name ∉ m_positional_dict p.
Proof.
  unfold add_positional, set_contains.
  rewrite positional_rule_grammar.
  destruct (is_identifier name); simpl; [| congruence].
  case_bool_decide; simpl; [congruence | auto].
Qed.

End RegistrationFacts.

(** A call that returned [false] left through one of the two early
    [return false;] statements, before any container is touched. *)
Lemma add_flag_failed (name : string) (rb : ref bool) (p : ArgumentParser) :
  returned (add_flag name rb p) = Some false -> after (add_flag name rb p) = p.
Proof.
  unfold add_flag.
  destruct (negb (regex_match name flag_rule)); [reflexivity |].
  destruct (contains (m_flags_dict p) name || contains (m_optionals_dict p) name);
    [reflexivity | discriminate].
Qed.

Lemma add_positional_failed {T : Type} (name : string) (r : ref T)
    (p : ArgumentParser) :
  returned (add_positional name r p) = Some false ->
  after (add_positional name r p) = p.
Proof.
  unfold add_positional.
  destruct (negb (regex_match name positional_rule)); [reflexivity |].
  destruct (set_contains (m_positional_dict p) name);
    [reflexivity | discriminate].
Qed.

(** What [add_positional] does to the two positional containers. *)
Lemma add_positional_dict {T : Type} (name : string) (r : ref T)
    (p : ArgumentParser) :
  m_positional_dict (after (add_positional name r p))
  = if is_identifier name then {[name]} ∪ m_positional_dict p
    else m_positional_dict p.
Proof.
  unfold add_positional, set_contains. rewrite positional_rule_grammar.
  destruct (is_identifier name); simpl; [| reflexivity].
  case_bool_decide as D; simpl; [| reflexivity].
  symmetry. apply subseteq_union_1_L, singleton_subseteq_l. exact D.
Qed.

Lemma add_positional_vect {T : Type} (name : string) (r : ref T)
    (p : ArgumentParser) :
  m_positional_vect (after (add_positional name r p)) = m_positional_vect p.
Proof.
  unfold add_positional.
  destruct (negb (regex_match name positional_rule)); [reflexivity |].
  destruct (set_contains (m_positional_dict p) name); reflexivity.
Qed.

Lemma add_positional_optionals {T : Type} (name : string) (r : ref T)
    (p : ArgumentParser) :
  m_optionals_dict (after (add_positional name r p)) = m_optionals_dict p.
Proof.
  unfold add_positional.
  destruct (negb (regex_match name positional_rule)); [reflexivity |].
  destruct (set_contains (m_positional_dict p) name); reflexivity.
Qed.

Lemma add_flag_keeps (name : string) (rb : ref bool) (p : ArgumentParser) :
  m_optionals_dict (after (add_flag name rb p)) = m_optionals_dict p
  /\ m_positional_vect (after (add_flag name rb p)) = m_positional_vect p.
Proof.
  unfold add_flag.
  destruct (negb (regex_match name flag_rule)); [auto |].
  destruct (contains (m_flags_dict p) name || contains (m_optionals_dict p) name);
    auto.
Qed.

(** No registration call ever stores a token parser. *)
Lemma register_keeps (c : registration) (p : ArgumentParser) :
  m_optionals_dict (after (register c p)) = m_optionals_dict p
  /\ m_positional_vect (after (register c p)) = m_positional_vect p.
Proof.
  destruct c as [name rb | T name r | T name r]; simpl.
  - apply add_flag_keeps.
  - rewrite add_option_after. auto.
  - rewrite add_positional_optionals, add_positional_vect. auto.
Qed.

Lemma register_all_keeps (cs : list registration) :
  forall p,
    m_optionals_dict (register_all cs p) = m_optionals_dict p
    /\ m_positional_vect (register_all cs p) = m_positional_vect p.
Proof.
  induction cs as [| c cs IH]; intros p; simpl; [auto |].
  destruct (IH (after (register c p))) as [H1 H2].
  destruct (register_keeps c p) as [K1 K2].
  unfold register_all in *. rewrite H1, H2. auto.
Qed.

Lemma register_all_positional_dict (cs : list registration) :
  forall p,
    forallb is_positional cs = true ->
    m_positional_dict (register_all cs p)
    = list_to_set (List.filter is_identifier (map registration_name cs))
      ∪ m_positional_dict p.
Proof.
  induction cs as [| c cs IH]; intros p A; simpl in *.
  - symmetry. apply union_empty_l_L.
  - apply andb_true_iff in A as [Hc A].
    destruct c as [name rb | T name r | T name r]; try discriminate.
    unfold register_all in *. simpl. rewrite (IH _ A).
    rewrite add_positional_dict.
    destruct (is_identifier name); simpl; [| reflexivity].
    set (L := list_to_set (List.filter is_identifier (map registration_name cs))).
    rewrite (assoc_L (∪)), (comm_L (∪) L {[name]}). reflexivity.
Qed.

(** C2 (the code departs from it in the returned value).  For every
    name that matches the flag grammar and is in neither dictionary,
    [add_flag] binds the name to the caller's cell in [m_flags_dict], leaves
    every other binding alone and prints nothing; and its body then ends
    at the closing brace: no [return] statement is executed, so the call
    does not return [true]. *)
Theorem add_flag_stores_without_return
    (name : string) (rb : ref bool) (p : ArgumentParser) :
  is_flag_name name = true ->
  m_flags_dict p !! name = None ->
  m_optionals_dict p !! name = None ->
  m_flags_dict (after (add_flag name rb p)) !! name = Some rb
  /\ (forall k, k <> name ->
        m_flags_dict (after (add_flag name rb p)) !! k = m_flags_dict p !! k)
  /\ cerr (add_flag name rb p) = []
  /\ returned (add_flag name rb p) = None.
Proof.
  intros V F O. rewrite (add_flag_fresh name rb p V F O). simpl.
  repeat split.
  - apply lookup_insert_eq.
  - intros k Hk. apply lookup_insert_ne. congruence.
Qed.

Lemma add_flag_stores_without_return_witness :
  m_flags_dict
    (after (add_flag "--verbose" Scenario.v (ArgumentParser_new "prog" EmptyString)))
    !! "--verbose" = Some Scenario.v
  /\ returned (add_flag "--verbose" Scenario.v (ArgumentParser_new "prog" EmptyString))
     = None.
Proof.
  destruct (add_flag_stores_without_return "--verbose" Scenario.v
              (ArgumentParser_new "prog" EmptyString)) as (H1 & _ & _ & H4).
  - reflexivity.
  - reflexivity.
  - reflexivity.
  - split; [exact H1 | exact H4].
Defined.

(** C7.  A name outside the flag grammar makes [add_flag] and [add_option]
    return [false] after printing the "not an appropriate flag/option name"
    line, and a name that is not an identifier makes [add_positional] return
    [false] after printing the "not an appropriate positional name" line; the
    parser is the one the call received. *)
Theorem invalid_names_are_rejected
    (T : Type) (name : string) (rb : ref bool) (r : ref T)
    (p : ArgumentParser) :
  (is_flag_name name = false ->
     add_flag name rb p
     = mkCall p (Some false) [format flag_name_error name]
     /\ add_option name r p
        = mkCall p (Some false) [format option_name_error name])
  /\ (is_identifier name = false ->
        add_positional name r p
        = mkCall p (Some false) [format positional_name_error name]).
Proof.
  split.
  - intros V. split; [apply add_flag_invalid | apply add_option_invalid]; exact V.
  - apply add_positional_invalid.
Qed.

Lemma invalid_names_are_rejected_witness :
  (returned (add_flag "foo" Scenario.v Scenario.parser) = Some false
   /\ returned (add_option "--1bad" Scenario.c Scenario.parser) = Some false)
  /\ returned (add_positional "123x" Scenario.n Scenario.parser) = Some false
  /\ returned (add_positional "-x" Scenario.n Scenario.parser) = Some false.
Proof.
  pose proof (invalid_names_are_rejected int "foo" Scenario.v Scenario.c
                Scenario.parser) as [F _].
  pose proof (invalid_names_are_rejected int "--1bad" Scenario.v Scenario.c
                Scenario.parser) as [O _].
  pose proof (invalid_names_are_rejected string "123x" Scenario.v Scenario.n
                Scenario.parser) as [_ P1].
  pose proof (invalid_names_are_rejected string "-x" Scenario.v Scenario.n
                Scenario.parser) as [_ P2].
  destruct (F eq_refl) as [F1 _]. destruct (O eq_refl) as [_ O2].
  rewrite F1, O2, (P1 eq_refl), (P2 eq_refl). simpl. auto.
Defined.

(** C8.  A registration call that returns [false] hands back the parser it
    was given: the four containers, and with them every binding stored
    before, are the same after the call as before it. *)
Theorem failed_registration_changes_nothing
    (T : Type) (name : string) (rb : ref bool) (r : ref T)
    (p : ArgumentParser) :
  (returned (add_flag name rb p) = Some false ->
     after (add_flag name rb p) = p)
  /\ (returned (add_option name r p) = Some false ->
        after (add_option name r p) = p)
  /\ (returned (add_positional name r p) = Some false ->
        after (add_positional name r p) = p).
Proof.
  split; [apply add_flag_failed | split].
  - intros _. apply add_option_after.
  - apply add_positional_failed.
Qed.

Lemma failed_registration_changes_nothing_witness :
  after (add_flag "--verbose" Scenario.v Scenario.parser) = Scenario.parser
  /\ after (add_option "count" Scenario.c Scenario.parser) = Scenario.parser
  /\ after (add_positional "name" Scenario.n Scenario.parser) = Scenario.parser.
Proof.
  destruct (failed_registration_changes_nothing int "--verbose" Scenario.v
              Scenario.c Scenario.parser) as (F & _ & _).
  destruct (failed_registration_changes_nothing int "count" Scenario.v
              Scenario.c Scenario.parser) as (_ & O & _).
  destruct (failed_registration_changes_nothing string "name" Scenario.v
              Scenario.n Scenario.parser) as (_ & _ & P).
  split; [apply F | split; [apply O | apply P]]; vm_compute; reflexivity.
Defined.

(** Where a second registration is refused.  Take a name that matches the
    grammar of its kind.  A first [add_flag] of it (the name is in neither dictionary)
    passes both checks and prints nothing, and after it a second [add_flag]
    and an [add_option] of the same name both return [false] with the
    "has been already registered" line.  Whenever the name is already in one
    of the two dictionaries, [add_flag] and [add_option] fail in that way.
    A first [add_positional] (the name is not in the positional set) passes
    both checks and prints nothing, and after it, or whenever the name is
    already in the set, [add_positional] returns [false] with the "another
    positional ... has already been registered" line. *)
Theorem registration_at_most_once
    (T : Type) (name : string) (rb rb' : ref bool) (r r' : ref T)
    (p : ArgumentParser) :
  (is_flag_name name = true ->
     (m_flags_dict p !! name = None -> m_optionals_dict p !! name = None ->
        let p1 := after (add_flag name rb p) in
        returned (add_flag name rb p) <> Some false
        /\ cerr (add_flag name rb p) = []
        /\ add_flag name rb' p1
           = mkCall p1 (Some false) [format already_registered_error name]
        /\ add_option name r' p1
           = mkCall p1 (Some false) [format already_registered_error name])
     /\ (is_Some (m_flags_dict p !! name)
         \/ is_Some (m_optionals_dict p !! name) ->
           add_flag name rb p
           = mkCall p (Some false) [format already_registered_error name]
           /\ add_option name r p
              = mkCall p (Some false) [format already_registered_error name]))
  /\ (is_identifier name = true ->
        (name ∉ m_positional_dict p ->
           let p1 := after (add_positional name r p) in
           returned (add_positional name r p) <> Some false
           /\ cerr (add_positional name r p) = []
           /\ add_positional name r' p1
              = mkCall p1 (Some false)
                  [format positional_registered_error name])
        /\ (name ∈ m_positional_dict p ->
              add_positional name r p
              = mkCall p (Some false)
                  [format positional_registered_error name])).
Proof.
  split.
  - intros V. split.
    + intros F O. rewrite (add_flag_fresh name rb p V F O). simpl.
      assert (D : is_Some (<[name := rb]> (m_flags_dict p) !! name)).
      { rewrite lookup_insert_eq. eauto. }
      repeat split; try congruence.
      * apply add_flag_duplicate; simpl; auto.
      * apply add_option_duplicate; simpl; auto.
    + intros D. split;
        [apply add_flag_duplicate | apply add_option_duplicate]; auto.
  - intros V. split.
    + intros F. rewrite (add_positional_fresh name r p V F). simpl.
      repeat split; try congruence.
      apply add_positional_duplicate; simpl; [exact V |].
      apply elem_of_union_l, elem_of_singleton. reflexivity.
    + apply add_positional_duplicate. exact V.
Qed.

Lemma registration_at_most_once_witness :
  (returned (add_flag "--verbose" Scenario.v Scenario.fresh) <> Some false
   /\ returned (add_flag "--verbose" Scenario.v
                  (after (add_flag "--verbose" Scenario.v Scenario.fresh)))
      = Some false
   /\ returned (add_option "--verbose" Scenario.c
                  (after (add_flag "--verbose" Scenario.v Scenario.fresh)))
      = Some false)
  /\ (returned (add_positional "name" Scenario.n Scenario.fresh) <> Some false
      /\ returned (add_positional "name" Scenario.n
                     (after (add_positional "name" Scenario.n Scenario.fresh)))
         = Some false).
Proof.
  destruct (registration_at_most_once int "--verbose" Scenario.v Scenario.v
              Scenario.c Scenario.c Scenario.fresh) as [F _].
  destruct (registration_at_most_once string "name" Scenario.v Scenario.v
              Scenario.n Scenario.n Scenario.fresh) as [_ P].
  destruct (F eq_refl) as [F1 _]. destruct (P eq_refl) as [P1 _].
  destruct (F1 eq_refl eq_refl) as (A1 & _ & A3 & A4).
  assert (N : "name" ∉ m_positional_dict Scenario.fresh)
    by (apply (bool_decide_unpack _); vm_compute; exact I).
  destruct (P1 N) as (B1 & _ & B3).
  rewrite A3, A4, B3. simpl. auto.
Defined.

(** C3 (the code departs from it after a first [add_option], and in the
    returned value).  Take a name that matches the option grammar and is in
    neither dictionary.  A first [add_option] of it passes both checks,
    stores nothing and ends at the closing brace of its body: it does not
    return [true].  The parser being as before, a second [add_option] of
    the same name, for a cell of whatever type, passes both checks again:
    it prints no "has been already registered" line and does not return
    [false].  An [add_flag] of the same name after the first [add_option]
    is not refused either: it binds the name. *)
Theorem second_registration_after_add_option_is_accepted
    (T U : Type) (name : string) (r : ref T) (r' : ref U) (rb : ref bool)
    (p : ArgumentParser) :
  is_flag_name name = true ->
  m_flags_dict p !! name = None ->
  m_optionals_dict p !! name = None ->
  add_option name r p = mkCall p None []
  /\ add_option name r' (after (add_option name r p)) = mkCall p None []
  /\ returned (add_flag name rb (after (add_option name r p))) = None
  /\ cerr (add_flag name rb (after (add_option name r p))) = []
  /\ m_flags_dict (after (add_flag name rb (after (add_option name r p))))
       !! name
     = Some rb.
Proof.
  intros V F O.
  rewrite (add_option_fresh name r p V F O). simpl after.
  rewrite (add_option_fresh name r' p V F O).
  rewrite (add_flag_fresh name rb p V F O). simpl.
  repeat split. apply lookup_insert_eq.
Qed.

Lemma second_registration_after_add_option_is_accepted_witness :
  returned (add_option "--count" Scenario.c Scenario.fresh) = None
  /\ returned (add_option "--count" Scenario.c
                 (after (add_option "--count" Scenario.c Scenario.fresh)))
     = None
  /\ cerr (add_option "--count" Scenario.c
             (after (add_option "--count" Scenario.c Scenario.fresh)))
     = [].
Proof.
  destruct (second_registration_after_add_option_is_accepted int int
              "--count" Scenario.c Scenario.c Scenario.v Scenario.fresh)
    as (A1 & A2 & _).
  - reflexivity.
  - reflexivity.
  - reflexivity.
  - rewrite A2. rewrite A1. simpl. auto.
Defined.

(** C10.  [add_positional], when it does not fail, puts the name (absent
    before) into [m_positional_dict] and leaves [m_positional_vect] as it
    was.  So on a new parser, after any sequence of [add_positional] calls
    the vector is empty while the set holds every name of the sequence that
    is an identifier.  [add_option] never changes [m_optionals_dict], and
    after any sequence of registration calls of any kind that dictionary and
    the vector are both empty. *)
Theorem token_parsers_are_never_stored
    (T : Type) (name : string) (r : ref T) (p : ArgumentParser)
    (cs : list registration) (program_name program_description : string) :
  (returned (add_positional name r p) <> Some false ->
     (name ∉ m_positional_dict p)
     /\ m_positional_dict (after (add_positional name r p))
        = {[name]} ∪ m_positional_dict p
     /\ m_positional_vect (after (add_positional name r p))
        = m_positional_vect p)
  /\ (forallb is_positional cs = true ->
        m_positional_vect
          (register_all cs (ArgumentParser_new program_name program_description))
        = []
        /\ m_positional_dict
             (register_all cs (ArgumentParser_new program_name program_description))
           = list_to_set (List.filter is_identifier (map registration_name cs)))
  /\ m_optionals_dict (after (add_option name r p)) = m_optionals_dict p
  /\ m_optionals_dict
       (register_all cs (ArgumentParser_new program_name program_description))
     = ∅
  /\ m_positional_vect
       (register_all cs (ArgumentParser_new program_name program_description))
     = [].
Proof.
  pose proof (register_all_keeps cs
                (ArgumentParser_new program_name program_description))
    as [KO KV].
  simpl in KO, KV.
  split; [| split; [| split; [| split]]].
  - intros A. apply add_positional_accepted in A as [V F].
    split; [exact F |].
    rewrite add_positional_dict, add_positional_vect, V. auto.
  - intros A. split; [exact KV |].
    rewrite (register_all_positional_dict cs _ A). simpl.
    apply union_empty_r_L.
  - rewrite add_option_after. reflexivity.
  - exact KO.
  - exact KV.
Qed.

Lemma token_parsers_are_never_stored_witness :
  m_positional_vect
    (register_all
       [RegPositional "name" Scenario.n; RegPositional "-x" Scenario.n;
        RegPositional "count" Scenario.c] Scenario.fresh)
  = []
  /\ m_positional_dict
       (register_all
          [RegPositional "name" Scenario.n; RegPositional "-x" Scenario.n;
           RegPositional "count" Scenario.c] Scenario.fresh)
     = list_to_set ["name"; "count"]
  /\ m_positional_vect
       (after (add_positional "name" Scenario.n Scenario.fresh))
     = [].
Proof.
  destruct (token_parsers_are_never_stored string "name" Scenario.n
              Scenario.fresh
              [RegPositional "name" Scenario.n; RegPositional "-x" Scenario.n;
               RegPositional "count" Scenario.c] "prog" EmptyString)
    as (S & Q & _).
  destruct (Q eq_refl) as [Q1 Q2].
  destruct S as (_ & _ & S3).
  - vm_compute. congruence.
  - split; [exact Q1 | split; [exact Q2 | exact S3]].
Defined.

(* ===================================================================== *)
(** * Parsing the command line                                            *)
(* ===================================================================== *)

(** C9.  Whatever the argument vector, the parser and the store,
    [parse_args] returns [false] and the store it leaves is the one it
    found: every cell, bound by a registration or not, holds its value
    from before the call. *)
Theorem parse_args_returns_false_and_writes_nothing
    (argc : int) (argv : list string) (p : ArgumentParser) (h : store) :
  fst (parse_args argc argv p h) = false
  /\ snd (parse_args argc argv p h) = h
  /\ (forall (name : string) (rb : ref bool),
        m_flags_dict p !! name = Some rb ->
        snd (parse_args argc argv p h) !! addr rb = h !! addr rb)
  /\ (forall l : loc, snd (parse_args argc argv p h) !! l = h !! l).
Proof. unfold parse_args. simpl. auto. Qed.

(** C1, as the code has it.  The three registration calls of the scenario
    pass their checks (none returns [false], none prints), and
    [parse_args] on the four tokens then returns [false] and leaves the
    store, hence [v], [c] and [n], as it was. *)
Theorem scenario_parse_returns_false (argc : int) (h : store) :
  let call1 := add_flag "--verbose" Scenario.v Scenario.fresh in
  let call2 := add_option "--count" Scenario.c (after call1) in
  let call3 := add_positional "name" Scenario.n (after call2) in
  (returned call1 <> Some false /\ cerr call1 = [])
  /\ (returned call2 <> Some false /\ cerr call2 = [])
  /\ (returned call3 <> Some false /\ cerr call3 = [])
  /\ after call3 = Scenario.parser
  /\ m_flags_dict Scenario.parser !! "--verbose" = Some Scenario.v
  /\ parse_args argc Scenario.tokens Scenario.parser h = (false, h)
  /\ snd (parse_args argc Scenario.tokens Scenario.parser h) !! addr Scenario.v
     = h !! addr Scenario.v
  /\ snd (parse_args argc Scenario.tokens Scenario.parser h) !! addr Scenario.c
     = h !! addr Scenario.c
  /\ snd (parse_args argc Scenario.tokens Scenario.parser h) !! addr Scenario.n
     = h !! addr Scenario.n.
Proof.
  cbv zeta. unfold parse_args. simpl snd.
  repeat split; try (vm_compute; congruence).
Qed.

(** With [v] false, [c] zero and [n] empty before the call, the call does not
    return [true] and [v], [c], [n] are not [true], [5], ["alice"] after
    it. *)
Lemma scenario_parse_counterexample :
  fst (Scenario.run 4) = false
  /\ snd (Scenario.run 4) !! addr Scenario.v = Some (VBool false)
  /\ snd (Scenario.run 4) !! addr Scenario.c = Some (VInt 0)
  /\ snd (Scenario.run 4) !! addr Scenario.n = Some (VString EmptyString)
  /\ ~ (fst (Scenario.run 4) = true
        /\ snd (Scenario.run 4) !! addr Scenario.v = Some (VBool true)
        /\ snd (Scenario.run 4) !! addr Scenario.c = Some (VInt 5)
        /\ snd (Scenario.run 4) !! addr Scenario.n = Some (VString "alice")).
Proof.
  unfold Scenario.run, parse_args. simpl fst. simpl snd.
  repeat split; try (vm_compute; reflexivity).
  intros [H _]. discriminate H.
Qed.

(* ===================================================================== *)
(** * Conversion strategies                                               *)
(* ===================================================================== *)

(** C6.  The text strategy returns its input, whatever it is, the empty
    string included; a [TokenParser<std::string>] therefore stores the token
    as it is and returns [true]. *)
Theorem text_conversion_is_identity (s : string) (r : ref string) (h : store) :
  ParseTraits_string_parse s = Returns (Some s)
  /\ parse (T := string) s = Returns (Some s)
  /\ ParseTraits_string_parse EmptyString = Returns (Some EmptyString)
  /\ TokenParser_parse (mkTokenParser r) s h
     = Returns (true, <[addr r := VString s]> h).
Proof. repeat split. Qed.

Section Scanning.

Local Arguments String.append : simpl nomatch.

Lemma skip_space_app (ws s : string) :
  string_forall isspace ws = true ->
  skip_space (ws ++ s) = skip_space s.
Proof.
  induction ws as [| c ws IH]; simpl; intros F; [reflexivity |].
  apply andb_true_iff in F as [Hc F]. rewrite Hc. auto.
Qed.

Lemma skip_space_stop (s : string) :
  stops isspace s = true -> skip_space s = s.
Proof.
  destruct s as [| c s]; simpl; [reflexivity |].
  intros H. apply negb_true_iff in H. rewrite H. reflexivity.
Qed.

Lemma skip_space_split (s : string) :
  exists ws, s = (ws ++ skip_space s)%string
             /\ string_forall isspace ws = true
             /\ stops isspace (skip_space s) = true.
Proof.
  induction s as [| c s (ws & E & F & S)]; simpl.
  - exists EmptyString. auto.
  - destruct (isspace c) eqn:Hc.
    + exists (String c ws). simpl. rewrite Hc, <- E. auto.
    + exists EmptyString. simpl. rewrite Hc. auto.
Qed.

Lemma span_app (p : ascii -> bool) (ds rest : string) :
  string_forall p ds = true -> stops p rest = true ->
  span p (ds ++ rest) = (ds, rest).
Proof.
  intros F S. induction ds as [| c ds IH]; simpl in *.
  - destruct rest as [| c rest]; simpl in *; [reflexivity |].
    apply negb_true_iff in S. rewrite S. reflexivity.
  - apply andb_true_iff in F as [Hc F]. rewrite Hc, (IH F). reflexivity.
Qed.

Lemma span_split (p : ascii -> bool) (s : string) :
  s = (fst (span p s) ++ snd (span p s))%string
  /\ string_forall p (fst (span p s)) = true
  /\ stops p (snd (span p s)) = true.
Proof.
  induction s as [| c s (E & F & S)]; simpl; [auto |].
  destruct (p c) eqn:Hc.
  - destruct (span p s) as [a b]. simpl in *. rewrite Hc, <- E. auto.
  - simpl. rewrite Hc. auto.
Qed.

Lemma digit_is_no_sign (d : ascii) :
  isdigit d = true -> Ascii.eqb d "-" = false /\ Ascii.eqb d "+" = false.
Proof. destruct d as [[] [] [] [] [] [] [] []]; vm_compute; auto. Qed.

Lemma digit_is_no_space (d : ascii) : isdigit d = true -> isspace d = false.
Proof. destruct d as [[] [] [] [] [] [] [] []]; vm_compute; auto. Qed.

Lemma take_sign_literal (sgn : string) (d : ascii) (t : string) :
  is_sign sgn = true -> isdigit d = true ->
  take_sign (sgn ++ String d t) = (String.eqb sgn "-", String d t)
  /\ stops isspace (sgn ++ String d t) = true.
Proof.
  intros S D. destruct (digit_is_no_sign d D) as [M P].
  destruct sgn as [| c [| c' sgn]]; simpl in *; try discriminate.
  - rewrite M, P, (digit_is_no_space d D). auto.
  - apply orb_true_iff in S as [S | S]; apply Ascii.eqb_eq in S; subst c;
      auto.
Qed.

Lemma take_sign_split (s : string) :
  exists sgn, s = (sgn ++ snd (take_sign s))%string
              /\ is_sign sgn = true
              /\ String.eqb sgn "-" = fst (take_sign s).
Proof.
  destruct s as [| c s]; simpl.
  - exists EmptyString. auto.
  - destruct (Ascii.eqb c "-") eqn:M.
    + apply Ascii.eqb_eq in M. subst c. exists "-". auto.
    + destruct (Ascii.eqb c "+") eqn:P.
      * apply Ascii.eqb_eq in P. subst c. exists "+". auto.
      * exists EmptyString. auto.
Qed.

(** [std::stoi] on a text that starts with a literal. *)
Lemma stoi_literal (ws sgn ds rest : string) :
  string_forall isspace ws = true ->
  is_sign sgn = true ->
  is_empty ds = false ->
  string_forall isdigit ds = true ->
  stops isdigit rest = true ->
  stoi (ws ++ sgn ++ ds ++ rest)
  = if in_int_range (literal_value sgn ds)
    then Ok (literal_value sgn ds) else Throw out_of_range.
Proof.
  intros W S N D R. unfold stoi.
  destruct ds as [| d ds']; [discriminate |].
  pose proof D as D'. simpl in D'. apply andb_true_iff in D' as [Hd _].
  change (String d ds' ++ rest)%string with (String d (ds' ++ rest)).
  destruct (take_sign_literal sgn d (ds' ++ rest) S Hd) as [TS SP].
  rewrite (skip_space_app ws _ W), (skip_space_stop _ SP), TS.
  change (String d (ds' ++ rest)) with (String d ds' ++ rest)%string.
  rewrite (span_app isdigit _ rest D R). reflexivity.
Qed.

(** Every text [std::stoi] converts starts with a literal of that value. *)
Lemma stoi_inv (s : string) (v : Z) :
  stoi s = Ok v -> int_literal_prefix s v /\ in_int_range v = true.
Proof.
  unfold stoi. intros H.
  destruct (skip_space_split s) as (ws & Es & W & _).
  destruct (take_sign_split (skip_space s)) as (sgn & Et & S & Eneg).
  destruct (take_sign (skip_space s)) as [neg t]. simpl in Et, Eneg.
  destruct (span_split isdigit t) as (Ed & D & R).
  destruct (span isdigit t) as [ds rest]. simpl in Ed, D, R.
  destruct ds as [| d ds']; [discriminate |].
  destruct (in_int_range (negate_if neg (decimal (String d ds')))) eqn:I;
    [| discriminate].
  injection H as <-. split; [| exact I].
  exists ws, sgn, (String d ds'), rest.
  unfold literal_value. rewrite Eneg.
  repeat split; auto. rewrite <- Ed, <- Et. exact Es.
Qed.

End Scanning.

(** The text [3.5] is converted, to 3: it is not a failure. *)
Lemma int_conversion_counterexample :
  ParseTraits_int_parse "3.5" = Returns (Some 3)
  /\ ParseTraits_int_parse "3.5" <> Returns None.
Proof. split; [reflexivity | discriminate]. Qed.

(** C4, as the code has it.  The integer strategy maps [42] to 42 and [-7]
    to -7, fails on [abc], and maps [3.5] to 3.  It returns [v] exactly when
    the text starts, after optional white space, with an optionally signed
    run of decimal digits whose value [v] fits an [int], whatever follows
    the digits; on every other text it returns failure. *)
Theorem int_conversion_reads_a_literal_prefix :
  ParseTraits_int_parse "42" = Returns (Some 42)
  /\ ParseTraits_int_parse "-7" = Returns (Some (-7))
  /\ ParseTraits_int_parse "abc" = Returns None
  /\ ParseTraits_int_parse "3.5" = Returns (Some 3)
  /\ (forall (s : string) (v : Z),
        ParseTraits_int_parse s = Returns (Some v)
        <-> int_literal_prefix s v /\ in_int_range v = true)
  /\ (forall s : string,
        ParseTraits_int_parse s = Returns None
        <-> ~ exists v, int_literal_prefix s v /\ in_int_range v = true).
Proof.
  assert (Char : forall s v,
             ParseTraits_int_parse s = Returns (Some v)
             <-> int_literal_prefix s v /\ in_int_range v = true).
  { intros s v. unfold ParseTraits_int_parse. split.
    - destruct (stoi s) as [z | e] eqn:E; intros H; [| discriminate].
      injection H as ->. apply stoi_inv. exact E.
    - intros [(ws & sgn & ds & rest & -> & W & S & N & D & R & ->) I].
      rewrite (stoi_literal ws sgn ds rest W S N D R), I. reflexivity. }
  do 4 (split; [reflexivity |]).
  split; [exact Char |].
  intros s. split.
  - intros H [v P]. apply Char in P. congruence.
  - intros H. unfold ParseTraits_int_parse in *.
    destruct (stoi s) as [z | e] eqn:E; [| reflexivity].
    exfalso. apply H. exists z. apply Char.
    unfold ParseTraits_int_parse. rewrite E. reflexivity.
Qed.

Lemma int_conversion_reads_a_literal_prefix_witness :
  int_literal_prefix "  +12abc" 12
  /\ ParseTraits_int_parse "  +12abc" = Returns (Some 12).
Proof.
  assert (P : int_literal_prefix "  +12abc" 12).
  { exists "  ", "+", "12", "abc". repeat split. }
  split; [exact P |].
  destruct int_conversion_reads_a_literal_prefix as (_ & _ & _ & _ & Char & _).
  apply Char. split; [exact P | reflexivity].
Defined.

Section FloatingLiterals.

Local Arguments String.append : simpl nomatch.

Lemma span_empty (p : ascii -> bool) (s : string) :
  fst (span p s) = EmptyString <-> stops p s = true.
Proof.
  destruct s as [| c s]; simpl; [tauto |].
  destruct (p c); simpl.
  - destruct (span p s); simpl. split; discriminate.
  - tauto.
Qed.

(** The decimal form finds no mantissa exactly when the text starts with
    neither a digit nor a point followed by a digit. *)
Lemma decimal_mantissa_empty (t : string) :
  (let '(ip, fp, _) := take_mantissa isdigit t in is_empty (ip ++ fp))
  = negb match t with
         | String c t' =>
             isdigit c || (Ascii.eqb c "." && negb (stops isdigit t'))
         | EmptyString => false
         end.
Proof.
  destruct t as [| c t']; [reflexivity |].
  unfold take_mantissa. simpl span.
  destruct (isdigit c) eqn:D.
  - destruct (span isdigit t') as [a b]. simpl.
    destruct b as [| c' b']; [reflexivity |].
    destruct (Ascii.eqb c' "."); [| reflexivity].
    destruct (span isdigit b'); reflexivity.
  - simpl. destruct (Ascii.eqb c ".") eqn:P; [| reflexivity].
    pose proof (span_empty isdigit t') as E.
    destruct (span isdigit t') as [fp r2]. simpl in *.
    destruct (stops isdigit t'); destruct fp; simpl; auto.
    + destruct E as [_ E]. discriminate (E eq_refl).
    + destruct E as [E _]. discriminate (E eq_refl).
Qed.

Lemma starts_with_0x (t : string) :
  starts_with_nocase "0x" t = true ->
  exists t', t = String "0" t'.
Proof.
  destruct t as [| c t']; simpl; [discriminate |].
  intros H. apply andb_true_iff in H as [H _].
  exists t'. f_equal.
  destruct c as [[] [] [] [] [] [] [] []]; vm_compute in H;
    try discriminate; reflexivity.
Qed.

(** [strtod] converts nothing exactly on the texts that do not start with
    a literal. *)
Lemma scan_literal_none (t : string) :
  scan_literal t = LNone <-> starts_float_literal t = false.
Proof.
  unfold scan_literal, starts_float_literal.
  destruct (starts_with_nocase "inf" t);
    [split; intros H; discriminate H |].
  destruct (starts_with_nocase "nan" t);
    [split; intros H; discriminate H |].
  cbn [orb].
  pose proof (decimal_mantissa_empty t) as M.
  destruct (starts_with_nocase "0x" t) eqn:X.
  - apply starts_with_0x in X as [t' ->].
    change (isdigit "0") with true. simpl orb.
    split; [| discriminate]. intros H. exfalso.
    destruct (take_mantissa isxdigit _) as [[ip fp] r].
    destruct (ip ++ fp)%string; [| discriminate].
    destruct (take_mantissa isdigit (String "0" t')) as [[ip' fp'] r'].
    simpl in M. destruct (ip' ++ fp')%string; discriminate.
  - destruct (take_mantissa isdigit t) as [[ip fp] r].
    destruct (ip ++ fp)%string; simpl in M.
    + split; [intros _ | reflexivity].
      apply negb_true_iff. symmetry. exact M.
    + split; [discriminate |]. intros H. rewrite H in M. discriminate.
Qed.

Lemma stod_invalid_argument (s : string) :
  stod s = Throw invalid_argument
  <-> starts_float_literal (snd (take_sign (skip_space s))) = false.
Proof.
  unfold stod. destruct (take_sign (skip_space s)) as [neg t]. simpl snd.
  rewrite <- scan_literal_none.
  destruct (scan_literal t) as [ | | m e | m e | ];
    try (split; [discriminate | discriminate]).
  - destruct (range_error 2 m e (round_binary neg m e));
      split; discriminate.
  - destruct (range_error 10 m e (round_decimal neg m e));
      split; discriminate.
  - tauto.
Qed.

(** A text that goes on after [nan] is read as a NaN all the same. *)
Lemma stod_nan_prefix (rest : string) : stod ("nan" ++ rest) = Ok S754_nan.
Proof. reflexivity. Qed.

End FloatingLiterals.

(** The value 3.14 is within half a unit in the last place of
    [double_3_14]: the unit is [2^-51] there. *)
Lemma double_3_14_is_nearest :
  Z.abs (100 * 7070651414971679 - 314 * 2 ^ 51) * 2 <= 100.
Proof. vm_compute. discriminate. Qed.

(** What the strategy does with the slip of its return type in place. *)
Lemma double_conversion_truncates :
  stod "3.14" = Ok double_3_14
  /\ ParseTraits_double_parse "3.14" = Returns (Some 3)
  /\ TokenParser_parse (mkTokenParser (Ref 0%nat : ref double)) "3.14" ∅
     = Returns (true, {[0%nat := VDouble (int_to_double 3)]})
  /\ int_to_double 3 = S754_finite false 6755399441055744 (-51)
  /\ ParseTraits_double_parse "nan-ish" = Undefined.
Proof. repeat split. Qed.

(** [3.14] is mapped to the [int] 3, and a [double] cell bound to the
    strategy receives 3.0, not the [double] nearest 3.14; the text
    [nan-ish] is not a failure, [std::stod] reading its first three
    characters as a NaN. *)
Lemma double_conversion_counterexample :
  ParseTraits_double_parse "3.14" = Returns (Some 3)
  /\ int_to_double 3 <> double_3_14
  /\ stod "nan-ish" = Ok S754_nan
  /\ ParseTraits_double_parse "nan-ish" <> Returns None.
Proof. repeat split; try reflexivity; discriminate. Qed.

(** C5, as the code has it by design.  The floating-point strategy returns
    failure exactly when [std::stod] throws.  [std::stod] throws for want of
    a number exactly when the text does not start, after optional white
    space and sign, with a digit, a point followed by a digit, [inf] or
    [nan]: [abc] and [-ish] fail; and it throws on a literal out of range:
    [1e400] fails.  It reads [3.14] as the [double] nearest 3.14 and does
    not look at what follows a literal, so neither [3.14] nor any text that
    starts with [nan], such as [nan-ish], is a failure. *)
Theorem double_conversion_fails_when_stod_throws :
  (forall s : string,
     ParseTraits_double_parse s = Returns None <-> exists e, stod s = Throw e)
  /\ (forall s : string,
        stod s = Throw invalid_argument
        <-> starts_float_literal (snd (take_sign (skip_space s))) = false)
  /\ ParseTraits_double_parse "abc" = Returns None
  /\ ParseTraits_double_parse "-ish" = Returns None
  /\ ParseTraits_double_parse "1e400" = Returns None
  /\ stod "3.14" = Ok double_3_14
  /\ ParseTraits_double_parse "3.14" <> Returns None
  /\ (forall rest : string,
        stod ("nan" ++ rest) = Ok S754_nan
        /\ ParseTraits_double_parse ("nan" ++ rest) <> Returns None)
  /\ ParseTraits_double_parse "nan-ish" <> Returns None.
Proof.
  split.
  { intros s. unfold ParseTraits_double_parse.
    destruct (stod s) as [d | e].
    - split; [| intros [e E]; discriminate E].
      destruct (double_to_int d); discriminate.
    - split; eauto. }
  split; [exact stod_invalid_argument |].
  do 4 (split; [reflexivity |]).
  split; [discriminate |].
  split; [| discriminate].
  intros rest. unfold ParseTraits_double_parse.
  rewrite stod_nan_prefix. split; [reflexivity | discriminate].
Qed.

Lemma double_conversion_fails_when_stod_throws_witness :
  stod "1e400" = Throw out_of_range
  /\ ParseTraits_double_parse "1e400" = Returns None
  /\ stod ".x" = Throw invalid_argument.
Proof.
  destruct double_conversion_fails_when_stod_throws as (F & I & _).
  split; [reflexivity |]. split.
  - apply F. exists out_of_range. reflexivity.
  - apply I. reflexivity.
Defined.

(* ===================================================================== *)
(** * Further properties of the naming rules                              *)
(* ===================================================================== *)

(** X1.  [std::regex_match] against [flag_rule], and against
    [optional_rule], which is the same expression, accepts exactly a dash
    followed by one or more letters or dashes; against [positional_rule] it
    accepts exactly a letter or underscore followed by letters, digits and
    underscores. *)
Theorem naming_rules_accept_their_grammars (s : string) :
  regex_match s flag_rule = is_flag_name s
  /\ regex_match s optional_rule = is_flag_name s
  /\ regex_match s positional_rule = is_identifier s.
Proof.
  split; [apply flag_rule_grammar | split].
  - apply flag_rule_grammar.
  - apply positional_rule_grammar.
Qed.

Lemma dash_is_no_identifier_head (c : ascii) :
  is_dash c = true -> is_underscore c || is_letter c = false.
Proof.
  intros D. apply Ascii.eqb_eq in D. subst c. reflexivity.
Qed.

(** X2.  The two grammars share no string: a name that [flag_rule] accepts
    is rejected by [positional_rule], so no name can be registered both as
    a flag or option and as a positional.  Such a name has at least two
    characters. *)
Theorem flag_names_are_not_identifiers (s : string) :
  regex_match s flag_rule = true ->
  regex_match s positional_rule = false /\ (2 <= String.length s)%nat.
Proof.
  rewrite flag_rule_grammar, positional_rule_grammar.
  destruct s as [| c t]; simpl; [discriminate |]. intros H.
  apply andb_true_iff in H as [H _].
  apply andb_true_iff in H as [D E].
  rewrite (dash_is_no_identifier_head c D). split; [reflexivity |].
  destruct t; simpl in *; [discriminate | lia].
Qed.

Lemma flag_names_are_not_identifiers_witness :
  regex_match "--verbose" positional_rule = false
  /\ (2 <= String.length "--verbose")%nat.
Proof. apply (flag_names_are_not_identifiers "--verbose"). reflexivity. Defined.

(* ===================================================================== *)
(** * Further properties of registration                                  *)
(* ===================================================================== *)

(** X3.  No registration call returns [true].  A call of [add_flag],
    [add_option] or [add_positional] either returns [false], having printed
    exactly one line and changed nothing, or reaches the end of its body
    with no value returned and nothing printed. *)
Theorem registration_never_returns_true
    (c : registration) (p : ArgumentParser) :
  (returned (register c p) = Some false
   /\ (exists line, cerr (register c p) = [line])
   /\ after (register c p) = p)
  \/ (returned (register c p) = None /\ cerr (register c p) = []).
Proof.
  destruct c as [name rb | T name r | T name r]; simpl.
  - unfold add_flag.
    destruct (negb (regex_match name flag_rule)); [left; eauto |].
    destruct (contains (m_flags_dict p) name
              || contains (m_optionals_dict p) name);
      [left; eauto | right; auto].
  - unfold add_option.
    destruct (negb (regex_match name option_rule)); [left; eauto |].
    destruct (contains (m_flags_dict p) name
              || contains (m_optionals_dict p) name);
      [left; eauto | right; auto].
  - unfold add_positional.
    destruct (negb (regex_match name positional_rule)); [left; eauto |].
    destruct (set_contains (m_positional_dict p) name);
      [left; eauto | right; auto].
Qed.

(** Each of the five diagnostics is the fixed text of its format
    string with the offending name between the two backquotes, and ends
    with a line feed. *)
Theorem diagnostics_quote_the_name (name : string) :
  format flag_name_error name
  = ("[ERROR]: `" ++ name ++ "` is not an appropriate flag name" ++ newline)%string
  /\ format option_name_error name
     = ("[ERROR]: `" ++ name ++ "` is not an appropriate option name"
        ++ newline)%string
  /\ format positional_name_error name
     = ("[ERROR]: `" ++ name
        ++ "` is not an appropriate positional name, must be an identifier"
        ++ newline)%string
  /\ format already_registered_error name
     = ("[ERROR]: `" ++ name ++ "` has been already registered"
        ++ newline)%string
  /\ format positional_registered_error name
     = ("[ERROR]: another positional with name `" ++ name
        ++ "` has already been registered" ++ newline)%string.
Proof. repeat split. Qed.

(** What [add_flag] does to the flag dictionary, read at any key. *)
Lemma add_flag_lookup (n : string) (rb : ref bool) (p : ArgumentParser)
    (k : string) :
  m_flags_dict (after (add_flag n rb p)) !! k
  = match m_flags_dict p !! k with
    | Some x => Some x
    | None =>
        if String.eqb n k && is_flag_name n
           && negb (contains (m_optionals_dict p) n)
        then Some rb else None
    end.
Proof.
  unfold add_flag. rewrite flag_rule_grammar.
  destruct (String.eqb_spec n k) as [-> | Hne].
  - destruct (is_flag_name k); simpl.
    + destruct (m_flags_dict p !! k) as [x |] eqn:L.
      * rewrite (proj2 (contains_true _ _)) by (rewrite L; eauto).
        simpl. exact L.
      * rewrite (proj2 (contains_false _ _) L). simpl.
        destruct (contains (m_optionals_dict p) k); simpl;
          [exact L | apply lookup_insert_eq].
    + destruct (m_flags_dict p !! k); reflexivity.
  - cbn [andb].
    destruct (negb (is_flag_name n));
      [cbn [after]; destruct (m_flags_dict p !! k); reflexivity |].
    destruct (contains (m_flags_dict p) n || contains (m_optionals_dict p) n);
      [cbn [after]; destruct (m_flags_dict p !! k); reflexivity |].
    cbn [after m_flags_dict]. rewrite (lookup_insert_ne _ _ _ _ Hne).
    destruct (m_flags_dict p !! k); reflexivity.
Qed.

Lemma add_flag_positional_dict (n : string) (rb : ref bool)
    (p : ArgumentParser) :
  m_positional_dict (after (add_flag n rb p)) = m_positional_dict p.
Proof.
  unfold add_flag.
  destruct (negb (regex_match n flag_rule)); [reflexivity |].
  destruct (contains (m_flags_dict p) n || contains (m_optionals_dict p) n);
    reflexivity.
Qed.

Lemma add_positional_flags {T : Type} (n : string) (r : ref T)
    (p : ArgumentParser) :
  m_flags_dict (after (add_positional n r p)) = m_flags_dict p.
Proof.
  unfold add_positional.
  destruct (negb (regex_match n positional_rule)); [reflexivity |].
  destruct (set_contains (m_positional_dict p) n); reflexivity.
Qed.

Lemma register_program_strings (c : registration) (p : ArgumentParser) :
  m_program_name (after (register c p)) = m_program_name p
  /\ m_program_description (after (register c p)) = m_program_description p.
Proof.
  destruct c as [n rb | T n r | T n r]; simpl.
  - unfold add_flag.
    destruct (negb (regex_match n flag_rule)); [auto |].
    destruct (contains (m_flags_dict p) n || contains (m_optionals_dict p) n);
      auto.
  - rewrite add_option_after. auto.
  - unfold add_positional.
    destruct (negb (regex_match n positional_rule)); [auto |].
    destruct (set_contains (m_positional_dict p) n); auto.
Qed.

(** One call keeps the registries well named. *)
Lemma register_well_named (c : registration) (p : ArgumentParser) :
  well_named p -> well_named (after (register c p)).
Proof.
  intros [WF WP]. destruct c as [n rb | T n r | T n r]; simpl.
  - split.
    + intros k. rewrite add_flag_lookup.
      destruct (m_flags_dict p !! k) as [x |] eqn:L.
      * intros _. apply WF. rewrite L. eauto.
      * destruct (String.eqb_spec n k) as [-> | Hne]; simpl.
        -- destruct (is_flag_name k); simpl; [auto |].
           intros [x Hx]. discriminate Hx.
        -- intros [x Hx]. discriminate Hx.
    + rewrite add_flag_positional_dict. exact WP.
  - rewrite add_option_after. split; assumption.
  - split.
    + rewrite add_positional_flags. exact WF.
    + intros k. rewrite add_positional_dict.
      destruct (is_identifier n) eqn:V; [| apply WP].
      rewrite elem_of_union, elem_of_singleton.
      intros [-> | Hk]; [exact V | apply WP, Hk].
Qed.

(** X4.  The registries hold only valid names.  They do on a newly
    constructed parser, and every sequence of registration calls keeps it
    so: each key of [m_flags_dict] is a flag name and each element of
    [m_positional_dict] is an identifier. *)
Theorem registries_hold_only_valid_names
    (cs : list registration) (p : ArgumentParser)
    (program_name program_description : string) :
  well_named (ArgumentParser_new program_name program_description)
  /\ (well_named p -> well_named (register_all cs p)).
Proof.
  split.
  - split; simpl.
    + intros k [x Hx]. rewrite lookup_empty in Hx. discriminate Hx.
    + intros k Hk. apply not_elem_of_empty in Hk. destruct Hk.
  - revert p. induction cs as [| c cs IH]; intros p W; simpl; [exact W |].
    apply IH, register_well_named, W.
Qed.

Lemma registries_hold_only_valid_names_witness : well_named Scenario.parser.
Proof.
  destruct (registries_hold_only_valid_names Scenario.calls Scenario.fresh
              "prog" EmptyString) as [W0 W].
  exact (W W0).
Defined.

(** One call removes and rebinds nothing. *)
Lemma register_keeps_bindings (c : registration) (p : ArgumentParser)
    (k : string) (r : ref bool) :
  (m_flags_dict p !! k = Some r ->
     m_flags_dict (after (register c p)) !! k = Some r)
  /\ (k ∈ m_positional_dict p -> k ∈ m_positional_dict (after (register c p))).
Proof.
  destruct c as [n rb | T n r' | T n r']; simpl.
  - split.
    + intros L. rewrite add_flag_lookup, L. reflexivity.
    + rewrite add_flag_positional_dict. auto.
  - rewrite add_option_after. auto.
  - split.
    + rewrite add_positional_flags. auto.
    + rewrite add_positional_dict. destruct (is_identifier n); [| auto].
      intros Hk. apply elem_of_union_r, Hk.
Qed.

(** X5.  Registration only adds.  A flag bound to a cell stays bound to
    that same cell, and a positional name stays in the set, through every
    later sequence of registration calls: nothing is removed and no flag is
    ever rebound. *)
Theorem registered_names_stay_registered
    (cs : list registration) (p : ArgumentParser) (k : string)
    (r : ref bool) :
  (m_flags_dict p !! k = Some r ->
     m_flags_dict (register_all cs p) !! k = Some r)
  /\ (k ∈ m_positional_dict p -> k ∈ m_positional_dict (register_all cs p)).
Proof.
  revert p. induction cs as [| c cs IH]; intros p; simpl; [auto |].
  destruct (register_keeps_bindings c p k r) as [F P].
  destruct (IH (after (register c p))) as [IF IP].
  split; auto.
Qed.

Lemma registered_names_stay_registered_witness :
  m_flags_dict
    (register_all [RegFlag "--verbose" (Ref 7%nat); RegFlag "--quiet" (Ref 7%nat)]
       Scenario.parser) !! "--verbose" = Some Scenario.v.
Proof.
  apply (registered_names_stay_registered
           [RegFlag "--verbose" (Ref 7%nat); RegFlag "--quiet" (Ref 7%nat)]
           Scenario.parser "--verbose" Scenario.v).
  vm_compute. reflexivity.
Defined.

Lemma first_flag_step (c : registration) (cs : list registration)
    (p : ArgumentParser) (name : string) :
  m_optionals_dict p = ∅ ->
  match m_flags_dict (after (register c p)) !! name with
  | Some x => Some x
  | None => if is_flag_name name then first_flag cs name else None
  end
  = match m_flags_dict p !! name with
    | Some x => Some x
    | None => if is_flag_name name then first_flag (c :: cs) name else None
    end.
Proof.
  intros O. destruct c as [n rb | T n r | T n r]; simpl.
  - rewrite add_flag_lookup, O.
    rewrite (proj2 (contains_false (∅ : gmap string ITokenParser) n))
      by apply lookup_empty.
    destruct (m_flags_dict p !! name) as [x |]; [reflexivity |].
    destruct (String.eqb_spec n name) as [-> | Hne]; simpl.
    + destruct (is_flag_name name); reflexivity.
    + reflexivity.
  - rewrite add_option_after. reflexivity.
  - rewrite add_positional_flags. reflexivity.
Qed.

Lemma register_all_flag_lookup (cs : list registration) (name : string) :
  forall p : ArgumentParser,
    m_optionals_dict p = ∅ ->
    m_flags_dict (register_all cs p) !! name
    = match m_flags_dict p !! name with
      | Some x => Some x
      | None => if is_flag_name name then first_flag cs name else None
      end.
Proof.
  induction cs as [| c cs IH]; intros p O.
  - simpl. destruct (m_flags_dict p !! name); [reflexivity |].
    destruct (is_flag_name name); reflexivity.
  - change (register_all (c :: cs) p)
      with (register_all cs (after (register c p))).
    rewrite IH.
    + apply first_flag_step. exact O.
    + destruct (register_keeps c p) as [K _]. rewrite K. exact O.
Qed.

(** X6.  The first registration wins.  On a parser built from the
    constructor by any sequence of registration calls, a name is bound in
    [m_flags_dict] exactly when it is a flag name that some [add_flag] call
    of the sequence was given, and it is bound to the cell of the first
    such call; later calls with the same name, whatever their cell, and all
    [add_option] and [add_positional] calls leave the binding alone. *)
Theorem first_flag_registration_wins
    (cs : list registration) (program_name program_description : string)
    (name : string) :
  m_flags_dict
    (register_all cs (ArgumentParser_new program_name program_description))
    !! name
  = if is_flag_name name then first_flag cs name else None.
Proof.
  rewrite register_all_flag_lookup by reflexivity.
  simpl. rewrite lookup_empty. reflexivity.
Qed.

(** X7.  A registration call touches one namespace only.  Whatever the
    call, the program name, the program description, [m_optionals_dict]
    and [m_positional_vect] are as before; [add_positional] leaves
    [m_flags_dict] as it was, and [add_flag] and [add_option] leave
    [m_positional_dict] as it was. *)
Theorem registration_touches_one_namespace
    (c : registration) (p : ArgumentParser) :
  m_program_name (after (register c p)) = m_program_name p
  /\ m_program_description (after (register c p)) = m_program_description p
  /\ m_optionals_dict (after (register c p)) = m_optionals_dict p
  /\ m_positional_vect (after (register c p)) = m_positional_vect p
  /\ (is_positional c = true ->
        m_flags_dict (after (register c p)) = m_flags_dict p)
  /\ (is_positional c = false ->
        m_positional_dict (after (register c p)) = m_positional_dict p).
Proof.
  destruct (register_program_strings c p) as [N D].
  destruct (register_keeps c p) as [O V].
  repeat (split; [assumption |]).
  destruct c as [n rb | T n r | T n r]; simpl; split; try discriminate;
    intros _.
  - apply add_flag_positional_dict.
  - rewrite add_option_after. reflexivity.
  - apply add_positional_flags.
Qed.

Lemma registration_touches_one_namespace_witness :
  m_flags_dict (after (add_positional "verbose" Scenario.n Scenario.parser))
  = m_flags_dict Scenario.parser
  /\ m_positional_dict (after (add_flag "--name" Scenario.v Scenario.parser))
     = m_positional_dict Scenario.parser.
Proof.
  destruct (registration_touches_one_namespace
              (RegPositional "verbose" Scenario.n) Scenario.parser)
    as (_ & _ & _ & _ & P & _).
  destruct (registration_touches_one_namespace
              (RegFlag "--name" Scenario.v) Scenario.parser)
    as (_ & _ & _ & _ & _ & F).
  split; [exact (P eq_refl) | exact (F eq_refl)].
Defined.

Lemma register_positional_dict (c : registration) (p : ArgumentParser) :
  m_positional_dict (after (register c p))
  = list_to_set (List.filter is_identifier (positional_names [c]))
    ∪ m_positional_dict p.
Proof.
  destruct c as [n rb | T n r | T n r]; simpl.
  - rewrite add_flag_positional_dict. symmetry. apply union_empty_l_L.
  - rewrite add_option_after. symmetry. apply union_empty_l_L.
  - rewrite add_positional_dict. unfold positional_names. simpl.
    destruct (is_identifier n); simpl.
    + rewrite union_empty_r_L. reflexivity.
    + symmetry. apply union_empty_l_L.
Qed.

Lemma positional_names_cons (c : registration) (cs : list registration) :
  positional_names (c :: cs)
  = (positional_names [c] ++ positional_names cs)%list.
Proof.
  unfold positional_names. simpl. destruct (is_positional c); reflexivity.
Qed.

Lemma register_all_positional_names (cs : list registration) :
  forall p : ArgumentParser,
    m_positional_dict (register_all cs p)
    = list_to_set (List.filter is_identifier (positional_names cs))
      ∪ m_positional_dict p.
Proof.
  induction cs as [| c cs IH]; intros p.
  - simpl. symmetry. apply union_empty_l_L.
  - change (register_all (c :: cs) p)
      with (register_all cs (after (register c p))).
    rewrite IH, register_positional_dict, (positional_names_cons c cs).
    rewrite List.filter_app, list_to_set_app_L.
    set (A := list_to_set (List.filter is_identifier (positional_names [c]))
              : gset string).
    set (B := list_to_set (List.filter is_identifier (positional_names cs))
              : gset string).
    rewrite (assoc_L (∪)), (comm_L (∪) B A). reflexivity.
Qed.

(** X8.  The positional name set after any sequence of registration calls,
    of whatever kinds, on a new parser is the set of the identifiers among
    the names given to its [add_positional] calls; the [add_flag] and
    [add_option] calls in between add nothing to it and take nothing from
    it, and a repeated name appears once. *)
Theorem positional_set_is_the_identifiers_given
    (cs : list registration) (program_name program_description : string)
    (k : string) :
  m_positional_dict
    (register_all cs (ArgumentParser_new program_name program_description))
  = list_to_set (List.filter is_identifier (positional_names cs))
  /\ (k ∈ m_positional_dict
            (register_all cs
               (ArgumentParser_new program_name program_description))
      <-> is_identifier k = true /\ In k (positional_names cs)).
Proof.
  assert (E : m_positional_dict
                (register_all cs
                   (ArgumentParser_new program_name program_description))
              = list_to_set (List.filter is_identifier (positional_names cs))).
  { rewrite register_all_positional_names. simpl. apply union_empty_r_L. }
  split; [exact E |].
  rewrite E, elem_of_list_to_set, list_elem_of_In, List.filter_In. tauto.
Qed.

(* ===================================================================== *)
(** * Further properties of the token parsers and the strategies          *)
(* ===================================================================== *)

(** X9.  [TokenParser<T>::parse] writes at most the cell it is bound to.
    When it returns [false] the strategy has failed and the store is the
    one it received; when it returns [true] the strategy has produced a
    value and the store differs from the one received at the bound cell
    only, which now holds that value converted to [T]. *)
Theorem token_parser_writes_only_its_cell
    (T : Type) (PT : ParseTraits T) (AS : Assignable (@parsed T PT) T)
    (ST : Storable T) (tp : TokenParser T) (input : string)
    (h h' : store) (b : bool) :
  TokenParser_parse tp input h = Returns (b, h') ->
  (forall l : loc, l <> addr (m_ref tp) -> h' !! l = h !! l)
  /\ (b = false -> parse input = Returns None /\ h' = h)
  /\ (b = true ->
        exists v, parse input = Returns (Some v)
                  /\ h' !! addr (m_ref tp) = Some (to_value (assign v : T))).
Proof.
  unfold TokenParser_parse.
  destruct (parse input) as [[v |] |]; intros E; try discriminate;
    injection E as <- <-.
  - split; [| split].
    + intros l Hl. apply lookup_insert_ne. congruence.
    + discriminate.
    + intros _. exists v. split; [reflexivity | apply lookup_insert_eq].
  - split; [| split].
    + reflexivity.
    + auto.
    + discriminate.
Qed.

Lemma token_parser_writes_only_its_cell_witness :
  <[addr Scenario.c := VInt 5]> Scenario.cells !! addr Scenario.n
  = Scenario.cells !! addr Scenario.n.
Proof.
  destruct (token_parser_writes_only_its_cell int ParseTraits_int
              (Assignable_same int) Storable_int (mkTokenParser Scenario.c)
              "5" Scenario.cells
              (<[addr Scenario.c := VInt 5]> Scenario.cells) true)
    as (F & _ & _).
  - reflexivity.
  - apply F. discriminate.
Defined.

(** X10.  Of two calls of [TokenParser<T>::parse] on the same parser the
    later successful one decides the cell: when the second call returns
    [true], the store it leaves is the one it would have left had the first
    call not been made; when it returns [false], the store stays as the
    first call left it. *)
Theorem token_parser_last_write_wins
    (T : Type) (PT : ParseTraits T) (AS : Assignable (@parsed T PT) T)
    (ST : Storable T) (tp : TokenParser T) (s1 s2 : string)
    (h h1 h2 : store) (b1 b2 : bool) :
  TokenParser_parse tp s1 h = Returns (b1, h1) ->
  TokenParser_parse tp s2 h1 = Returns (b2, h2) ->
  (b2 = true -> TokenParser_parse tp s2 h = Returns (true, h2))
  /\ (b2 = false -> h2 = h1).
Proof.
  unfold TokenParser_parse.
  destruct (parse s1) as [[v1 |] |]; intros E1; try discriminate;
    injection E1 as <- <-;
    destruct (parse s2) as [[v2 |] |]; intros E2; try discriminate;
    injection E2 as <- <-; split; try discriminate; intros _;
    try reflexivity.
  rewrite insert_insert_eq. reflexivity.
Qed.

Lemma token_parser_last_write_wins_witness :
  TokenParser_parse (mkTokenParser Scenario.c) "7" Scenario.cells
  = Returns (true, <[addr Scenario.c := VInt 7]>
                     (<[addr Scenario.c := VInt 5]> Scenario.cells)).
Proof.
  destruct (token_parser_last_write_wins int ParseTraits_int
              (Assignable_same int) Storable_int (mkTokenParser Scenario.c)
              "5" "7" Scenario.cells
              (<[addr Scenario.c := VInt 5]> Scenario.cells)
              (<[addr Scenario.c := VInt 7]>
                 (<[addr Scenario.c := VInt 5]> Scenario.cells))
              true true) as [W _].
  - reflexivity.
  - reflexivity.
  - apply W. reflexivity.
Defined.

(** X11.  [TokenParser<int>::parse] never has undefined behaviour.  It
    returns [true] and stores [v] in its cell when the token starts, after
    optional white space, with an optionally signed run of decimal digits
    whose value [v] fits an [int]; on every other token it returns [false]
    and leaves the store as it was. *)
Theorem int_token_parser_stores_the_literal
    (r : ref int) (input : string) (h : store) :
  (forall v : Z,
     int_literal_prefix input v -> in_int_range v = true ->
     TokenParser_parse (mkTokenParser r) input h
     = Returns (true, <[addr r := VInt v]> h))
  /\ ((~ exists v, int_literal_prefix input v /\ in_int_range v = true) ->
        TokenParser_parse (mkTokenParser r) input h = Returns (false, h)).
Proof.
  unfold TokenParser_parse. simpl. unfold ParseTraits_int_parse. split.
  - intros v (ws & sgn & ds & rest & -> & W & S & N & D & R & ->) I.
    rewrite (stoi_literal ws sgn ds rest W S N D R), I. reflexivity.
  - intros H. destruct (stoi input) as [z | e] eqn:E; [| reflexivity].
    exfalso. apply H. exists z. apply stoi_inv. exact E.
Qed.

Lemma int_token_parser_stores_the_literal_witness :
  TokenParser_parse (mkTokenParser Scenario.c) " -12;" Scenario.cells
  = Returns (true, <[addr Scenario.c := VInt (-12)]> Scenario.cells).
Proof.
  destruct (int_token_parser_stores_the_literal Scenario.c " -12;"
              Scenario.cells) as [W _].
  apply W; [| reflexivity].
  exists " ", "-", "12", ";". repeat split.
Defined.

Lemma skip_space_all (s : string) :
  string_forall isspace s = true -> skip_space s = EmptyString.
Proof.
  induction s as [| c s IH]; simpl; [reflexivity |]. intros F.
  apply andb_true_iff in F as [Hc F]. rewrite Hc. auto.
Qed.

(** X12.  Both numeric strategies skip leading white space: prefixing a
    text with spaces, tabs or line breaks changes neither the result of
    the integer strategy nor that of the floating-point strategy. *)
Theorem leading_white_space_is_skipped (ws s : string) :
  string_forall isspace ws = true ->
  ParseTraits_int_parse (ws ++ s) = ParseTraits_int_parse s
  /\ ParseTraits_double_parse (ws ++ s) = ParseTraits_double_parse s.
Proof.
  intros W.
  unfold ParseTraits_int_parse, ParseTraits_double_parse, stoi, stod.
  rewrite (skip_space_app ws s W). auto.
Qed.

Lemma leading_white_space_is_skipped_witness :
  ParseTraits_int_parse "  42" = ParseTraits_int_parse "42"
  /\ ParseTraits_double_parse "  42" = ParseTraits_double_parse "42".
Proof.
  apply (leading_white_space_is_skipped "  " "42"). reflexivity.
Defined.

(** X13.  A text with nothing but white space in it, the empty text
    included, is a failure for both numeric strategies, and a token parser
    for [int] given such a token returns [false] without writing. *)
Theorem blank_text_is_a_failure (s : string) (r : ref int) (h : store) :
  string_forall isspace s = true ->
  ParseTraits_int_parse s = Returns None
  /\ ParseTraits_double_parse s = Returns None
  /\ TokenParser_parse (mkTokenParser r) s h = Returns (false, h).
Proof.
  intros W.
  unfold TokenParser_parse. simpl.
  unfold ParseTraits_int_parse, ParseTraits_double_parse, stoi, stod.
  rewrite (skip_space_all s W). auto.
Qed.

Lemma blank_text_is_a_failure_witness :
  ParseTraits_int_parse EmptyString = Returns None
  /\ ParseTraits_double_parse EmptyString = Returns None
  /\ TokenParser_parse (mkTokenParser Scenario.c) EmptyString Scenario.cells
     = Returns (false, Scenario.cells).
Proof.
  apply (blank_text_is_a_failure EmptyString Scenario.c Scenario.cells).
  reflexivity.
Defined.

(** X14.  A text that reads, after optional white space and sign, [inf] or
    [nan] in any case of letters is neither converted nor refused by the
    floating-point strategy: [std::stod] returns an infinity or a NaN, and
    the conversion of that value to the [int] of the returned
    [std::optional<int>] is undefined. *)
Theorem infinities_and_nans_are_undefined (s : string) :
  starts_with_nocase "inf" (snd (take_sign (skip_space s)))
  || starts_with_nocase "nan" (snd (take_sign (skip_space s))) = true ->
  ParseTraits_double_parse s = Undefined.
Proof.
  unfold ParseTraits_double_parse, stod.
  destruct (take_sign (skip_space s)) as [neg t]. simpl snd.
  unfold scan_literal. intros H.
  destruct (starts_with_nocase "inf" t); [reflexivity |].
  change (starts_with_nocase "nan" t = true) in H. rewrite H. reflexivity.
Qed.

Lemma infinities_and_nans_are_undefined_witness :
  ParseTraits_double_parse " -Infinity" = Undefined.
Proof. apply infinities_and_nans_are_undefined. reflexivity. Defined.

Section ExactConversions.

Local Arguments String.append : simpl nomatch.

Lemma iter_xO_value (p k : positive) :
  Zpos (Pos.iter xO p k) = Zpos p * 2 ^ Zpos k.
Proof.
  induction k as [| k IH] using Pos.peano_ind.
  - simpl. lia.
  - rewrite Pos.iter_succ, Pos2Z.inj_xO, IH, Pos2Z.inj_succ, Z.pow_succ_r; lia.
Qed.

Lemma digits2_iter_xO (p k : positive) :
  digits2_pos (Pos.iter xO p k) = (digits2_pos p + k)%positive.
Proof.
  induction k as [| k IH] using Pos.peano_ind.
  - simpl. lia.
  - rewrite Pos.iter_succ. simpl. rewrite IH. lia.
Qed.

Lemma digits2_lower_bound (p : positive) :
  2 ^ (Zpos (digits2_pos p) - 1) <= Zpos p.
Proof.
  induction p as [p IH | p IH |]; simpl digits2_pos.
  - rewrite Pos2Z.inj_succ.
    replace (Z.succ (Zpos (digits2_pos p)) - 1)
      with (Z.succ (Zpos (digits2_pos p) - 1)) by lia.
    rewrite Z.pow_succ_r by lia. lia.
  - rewrite Pos2Z.inj_succ.
    replace (Z.succ (Zpos (digits2_pos p)) - 1)
      with (Z.succ (Zpos (digits2_pos p) - 1)) by lia.
    rewrite Z.pow_succ_r by lia. lia.
  - simpl. lia.
Qed.

Lemma digits2_of_int (p : positive) :
  Zpos p <= 2 ^ 31 -> Zpos (digits2_pos p) <= 32.
Proof.
  intros B. pose proof (digits2_lower_bound p) as L.
  destruct (Z_le_gt_dec (Zpos (digits2_pos p)) 32) as [H | H]; [exact H |].
  exfalso.
  assert (2 ^ 32 <= 2 ^ (Zpos (digits2_pos p) - 1))
    by (apply Z.pow_le_mono_r; lia).
  change (2 ^ 32) with 4294967296 in *. change (2 ^ 31) with 2147483648 in *.
  lia.
Qed.

(** A positive integer of at most 32 bits is a [double]: rounding it only
    shifts it to 53 bits. *)
Lemma binary_round_exact (neg : bool) (p : positive) :
  Zpos (digits2_pos p) <= 32 ->
  binary_round prec emax neg p 0
  = S754_finite neg (Pos.iter xO p (Z.to_pos (53 - Zpos (digits2_pos p))))
                    (Zneg (Z.to_pos (53 - Zpos (digits2_pos p)))).
Proof.
  intros B.
  set (k := Z.to_pos (53 - Zpos (digits2_pos p))).
  assert (K : Zpos k = 53 - Zpos (digits2_pos p)) by (unfold k; lia).
  assert (E1 : fexp prec emax (Zpos (digits2_pos p) + 0) = Zneg k).
  { unfold fexp, emin, prec, emax. lia. }
  unfold binary_round. rewrite E1.
  unfold shl_align. change (Zneg k - 0) with (Zneg k). cbv iota beta.
  assert (E2 : shr_fexp prec emax (Zpos (Pos.iter xO p k)) (Zneg k) loc_Exact
               = ({| shr_m := Zpos (Pos.iter xO p k);
                     shr_r := false; shr_s := false |}, Zneg k)).
  { unfold shr_fexp. simpl Zdigits2. rewrite digits2_iter_xO.
    replace (fexp prec emax (Zpos (digits2_pos p + k) + Zneg k) - Zneg k)
      with 0 by (unfold fexp, emin, prec, emax; lia).
    reflexivity. }
  unfold binary_round_aux. rewrite E2. simpl shr_m. simpl loc_of_shr_record.
  simpl round_nearest_even. rewrite E2. simpl shr_m.
  replace (Zneg k <=? emax - prec) with true; [reflexivity |].
  symmetry. apply Z.leb_le. unfold emax, prec. lia.
Qed.

Lemma double_to_int_of_shifted (neg : bool) (p k : positive) :
  in_int_range (negate_if neg (Zpos p)) = true ->
  double_to_int (S754_finite neg (Pos.iter xO p k) (Zneg k))
  = Returns (negate_if neg (Zpos p)).
Proof.
  intros I. unfold double_to_int.
  change (0 <=? Zneg k) with false. cbv iota.
  change (- Zneg k) with (Zpos k).
  rewrite iter_xO_value, Z.div_mul by (apply Z.pow_nonzero; lia).
  rewrite I. reflexivity.
Qed.

Lemma int_range_bits (neg : bool) (p : positive) :
  in_int_range (negate_if neg (Zpos p)) = true -> Zpos (digits2_pos p) <= 32.
Proof.
  intros I. apply digits2_of_int.
  unfold in_int_range, INT_MIN, INT_MAX in I.
  apply andb_true_iff in I as [L U].
  apply Z.leb_le in L, U.
  change (2 ^ 31) with 2147483648 in *.
  destruct neg; simpl in *; lia.
Qed.

(** Rounding an integer that fits an [int] and truncating the [double]
    back gives the integer. *)
Lemma round_then_truncate (neg : bool) (p : positive) :
  in_int_range (negate_if neg (Zpos p)) = true ->
  double_to_int (binary_round prec emax neg p 0)
  = Returns (negate_if neg (Zpos p)).
Proof.
  intros I. rewrite (binary_round_exact neg p (int_range_bits neg p I)).
  apply double_to_int_of_shifted, I.
Qed.

Lemma int_double_int (z : Z) :
  in_int_range z = true -> double_to_int (int_to_double z) = Returns z.
Proof.
  intros I. unfold int_to_double, binary_normalize.
  destruct z as [| p | p]; [reflexivity | |].
  - apply (round_then_truncate false p I).
  - apply (round_then_truncate true p I).
Qed.

Lemma double_to_int_range (d : double) (z : Z) :
  double_to_int d = Returns z -> in_int_range z = true.
Proof.
  unfold double_to_int. destruct d as [s | s | | s m e]; try discriminate.
  - intros E. injection E as <-. reflexivity.
  - destruct (in_int_range _) eqn:I; [| discriminate].
    intros E. injection E as <-. exact I.
Qed.

End ExactConversions.

(** X15.  A [double] cell bound to a [TokenParser<double>] only ever
    receives a whole number.  When the call returns [true], the strategy
    has produced an [int] [z], the cell holds [z] converted to [double],
    every other cell is as before, and that [double] converts back to
    [z]: the fraction the text may have had is gone. *)
Theorem double_token_parser_stores_a_whole_number
    (r : ref double) (input : string) (h h' : store) :
  TokenParser_parse (mkTokenParser r) input h = Returns (true, h') ->
  exists z : int,
    ParseTraits_double_parse input = Returns (Some z)
    /\ in_int_range z = true
    /\ h' = <[addr r := VDouble (int_to_double z)]> h
    /\ double_to_int (int_to_double z) = Returns z.
Proof.
  unfold TokenParser_parse. simpl.
  destruct (ParseTraits_double_parse input) as [[z |] |] eqn:P;
    intros E; try discriminate.
  injection E as <-. exists z.
  assert (I : in_int_range z = true).
  { unfold ParseTraits_double_parse in P.
    destruct (stod input) as [d | e]; [| discriminate].
    destruct (double_to_int d) as [z' |] eqn:D; [| discriminate].
    injection P as <-. apply (double_to_int_range d z' D). }
  repeat split; auto. apply int_double_int, I.
Qed.

Lemma double_token_parser_stores_a_whole_number_witness :
  exists z : int,
    ParseTraits_double_parse "2.75" = Returns (Some z)
    /\ in_int_range z = true
    /\ <[2%nat := VDouble (int_to_double 2)]> (∅ : store)
       = <[addr (Ref 2%nat : ref double) := VDouble (int_to_double z)]> ∅
    /\ double_to_int (int_to_double z) = Returns z.
Proof.
  apply (double_token_parser_stores_a_whole_number (Ref 2%nat) "2.75" ∅).
  reflexivity.
Defined.

Section IntegerLiterals.

Local Arguments String.append : simpl nomatch.

Lemma append_empty_r (s : string) : (s ++ EmptyString)%string = s.
Proof. induction s as [| c s IH]; simpl; [| rewrite IH]; reflexivity. Qed.

Lemma digit_is_no_letter (d : ascii) :
  isdigit d = true ->
  Ascii.eqb "i" (tolower d) = false
  /\ Ascii.eqb "n" (tolower d) = false
  /\ Ascii.eqb "x" (tolower d) = false.
Proof. destruct d as [[] [] [] [] [] [] [] []]; vm_compute; auto. Qed.

Lemma ends_integer_inv (rest : string) :
  ends_integer rest = true ->
  stops isdigit rest = true
  /\ starts_with_nocase "x" rest = false
  /\ take_exponent "e" rest = 0
  /\ match rest with
     | String c _ => Ascii.eqb c "." = false
     | EmptyString => True
     end.
Proof.
  unfold ends_integer.
  destruct rest as [| c rest]; [intros _; repeat split |].
  unfold stops. intros H.
  apply negb_true_iff in H.
  apply orb_false_iff in H as [H X].
  apply orb_false_iff in H as [H E].
  apply orb_false_iff in H as [D P].
  repeat split.
  - rewrite D. reflexivity.
  - change (starts_with_nocase "x" (String c rest))
      with (Ascii.eqb "x" (tolower c) && true).
    rewrite Ascii.eqb_sym, X. reflexivity.
  - unfold take_exponent. rewrite E. reflexivity.
  - exact P.
Qed.

Lemma decimal_nonneg (ds : string) :
  forall acc : Z,
    string_forall isdigit ds = true -> 0 <= acc ->
    0 <= number_from 10 digit_value acc ds.
Proof.
  induction ds as [| c ds IH]; simpl; intros acc D A; [exact A |].
  apply andb_true_iff in D as [Hc D]. apply IH; [exact D |].
  unfold isdigit in Hc. apply andb_true_iff in Hc as [L _].
  apply N.leb_le in L. unfold digit_value. lia.
Qed.

Lemma starts_with_nocase_cons (k : ascii) (kw : string) (c : ascii)
    (s : string) :
  starts_with_nocase (String k kw) (String c s)
  = Ascii.eqb k (tolower c) && starts_with_nocase kw s.
Proof. reflexivity. Qed.

(** What [strtod] scans on a run of digits that nothing continues. *)
Lemma scan_integer_literal (ds rest : string) :
  is_empty ds = false ->
  string_forall isdigit ds = true ->
  ends_integer rest = true ->
  scan_literal (ds ++ rest) = LDec (decimal ds) 0.
Proof.
  intros N D R.
  destruct (ends_integer_inv rest R) as (RD & RX & RE & RM).
  destruct ds as [| d ds']; [discriminate |].
  pose proof D as D'. simpl in D'. apply andb_true_iff in D' as [Hd Dt].
  destruct (digit_is_no_letter d Hd) as (NI & NN & _).
  unfold scan_literal.
  change (String d ds' ++ rest)%string with (String d (ds' ++ rest)).
  assert (I : starts_with_nocase "inf" (String d (ds' ++ rest)) = false)
    by (rewrite starts_with_nocase_cons, NI; reflexivity).
  assert (Na : starts_with_nocase "nan" (String d (ds' ++ rest)) = false)
    by (rewrite starts_with_nocase_cons, NN; reflexivity).
  assert (X : starts_with_nocase "0x" (String d (ds' ++ rest)) = false).
  { rewrite starts_with_nocase_cons.
    destruct ds' as [| d2 ds''].
    - change (EmptyString ++ rest)%string with rest.
      rewrite RX. apply andb_false_r.
    - simpl in Dt. apply andb_true_iff in Dt as [Hd2 _].
      destruct (digit_is_no_letter d2 Hd2) as (_ & _ & NX).
      change (String d2 ds'' ++ rest)%string with (String d2 (ds'' ++ rest)).
      rewrite starts_with_nocase_cons, NX. apply andb_false_r. }
  rewrite I, Na, X.
  change (String d (ds' ++ rest)) with (String d ds' ++ rest)%string.
  assert (M : take_mantissa isdigit (String d ds' ++ rest)
              = (String d ds', EmptyString, rest)).
  { unfold take_mantissa. rewrite (span_app isdigit _ rest D RD).
    destruct rest as [| c rest']; [reflexivity |].
    rewrite RM. reflexivity. }
  rewrite M, append_empty_r, RE. reflexivity.
Qed.

Lemma integer_is_not_tiny (p : positive) : tiny 10 (Zpos p) 0 = false.
Proof.
  unfold tiny. apply Z.ltb_ge.
  change (Z.max 0 0) with 0. change (Z.max (- 0) 0) with 0.
  change (10 ^ 0) with 1.
  assert (L : 2 ^ 54 - 1 <= 2 ^ 1076) by (vm_compute; discriminate).
  set (K := 2 ^ 1076) in *. set (J := 2 ^ 54 - 1) in *. nia.
Qed.

(** [std::stod] on an integer literal that fits an [int]: the result
    truncates back to the integer written. *)
Lemma stod_integer_literal (neg : bool) (m : Z) :
  0 <= m ->
  in_int_range (negate_if neg m) = true ->
  exists d,
    (let d' := round_decimal neg m 0 in
     if range_error 10 m 0 d' then Throw out_of_range else Ok d') = Ok d
    /\ double_to_int d = Returns (negate_if neg m).
Proof.
  intros P I. destruct m as [| p | p]; [| | lia].
  - exists (S754_zero neg). split; [reflexivity |].
    destruct neg; reflexivity.
  - pose proof (int_range_bits neg p I) as B.
    exists (binary_round prec emax neg p 0). split.
    + cbv zeta. unfold round_decimal.
      change (0 <=? 0) with true. cbv iota.
      change (Z.to_pos (10 ^ 0)) with 1%positive. rewrite Pos.mul_1_r.
      rewrite (binary_round_exact neg p B). unfold range_error.
      rewrite (integer_is_not_tiny p). reflexivity.
    + apply round_then_truncate, I.
Qed.

End IntegerLiterals.

(** X16.  On a plain integer literal the two numeric strategies agree.
    When the text is optional white space, an optional sign and a run of
    decimal digits whose value fits an [int], and what follows does not
    start with a digit, a point, [e], [E], [x] or [X], the floating-point
    strategy returns the same [int] as the integer strategy: the value of
    the literal. *)
Theorem strategies_agree_on_integer_literals (ws sgn ds rest : string) :
  string_forall isspace ws = true ->
  is_sign sgn = true ->
  is_empty ds = false ->
  string_forall isdigit ds = true ->
  ends_integer rest = true ->
  in_int_range (literal_value sgn ds) = true ->
  ParseTraits_double_parse (ws ++ sgn ++ ds ++ rest)
  = Returns (Some (literal_value sgn ds))
  /\ ParseTraits_int_parse (ws ++ sgn ++ ds ++ rest)
     = Returns (Some (literal_value sgn ds)).
Proof.
  intros W S N D R I.
  destruct (ends_integer_inv rest R) as (RD & _).
  split.
  - unfold ParseTraits_double_parse, stod.
    destruct ds as [| d ds']; [discriminate |].
    pose proof D as D'. simpl in D'. apply andb_true_iff in D' as [Hd _].
    change (String d ds' ++ rest)%string with (String d (ds' ++ rest)).
    destruct (take_sign_literal sgn d (ds' ++ rest) S Hd) as [TS SP].
    rewrite (skip_space_app ws _ W), (skip_space_stop _ SP), TS.
    change (String d (ds' ++ rest)) with (String d ds' ++ rest)%string.
    rewrite (scan_integer_literal (String d ds') rest N D R).
    destruct (stod_integer_literal (String.eqb sgn "-")
                (decimal (String d ds'))) as (x & E & T).
    + apply decimal_nonneg; [exact D | lia].
    + exact I.
    + cbv zeta in E. rewrite E, T. reflexivity.
  - unfold ParseTraits_int_parse.
    rewrite (stoi_literal ws sgn ds rest W S N D RD), I. reflexivity.
Qed.

Lemma strategies_agree_on_integer_literals_witness :
  ParseTraits_double_parse " -2147483648 " = Returns (Some (-2147483648))
  /\ ParseTraits_int_parse " -2147483648 " = Returns (Some (-2147483648)).
Proof.
  apply (strategies_agree_on_integer_literals " " "-" "2147483648" " ");
    reflexivity.
Defined.

(** X17.  [add_option] registers nothing.  After any sequence of
    [add_option] calls, with whatever names and cells, the parser is the
    one the sequence started from; so every flag name that was free before
    the sequence, those the calls were given included, is free after it,
    and a following [add_flag] binds it. *)
Theorem add_option_registers_nothing
    (cs : list registration) (p : ArgumentParser) (name : string)
    (rb : ref bool) :
  forallb is_option cs = true ->
  register_all cs p = p
  /\ (is_flag_name name = true ->
      m_flags_dict p !! name = None -> m_optionals_dict p !! name = None ->
      m_flags_dict (after (add_flag name rb (register_all cs p))) !! name
      = Some rb).
Proof.
  intros A.
  assert (E : register_all cs p = p).
  { revert p. induction cs as [| c cs IH]; intros p; [reflexivity |].
    simpl in A. apply andb_true_iff in A as [Hc A].
    change (register_all (c :: cs) p)
      with (register_all cs (after (register c p))).
    destruct c as [n r | T n r | T n r]; try discriminate.
    simpl. rewrite add_option_after. apply IH, A. }
  split; [exact E |].
  intros V F O. rewrite E, (add_flag_fresh name rb p V F O). simpl.
  apply lookup_insert_eq.
Qed.

Lemma add_option_registers_nothing_witness :
  register_all [RegOption "--count" Scenario.c; RegOption "--count" Scenario.n]
    Scenario.fresh
  = Scenario.fresh
  /\ m_flags_dict
       (after (add_flag "--count" Scenario.v
                 (register_all
                    [RegOption "--count" Scenario.c;
                     RegOption "--count" Scenario.n] Scenario.fresh)))
       !! "--count"
     = Some Scenario.v.
Proof.
  destruct (add_option_registers_nothing
              [RegOption "--count" Scenario.c; RegOption "--count" Scenario.n]
              Scenario.fresh "--count" Scenario.v eq_refl) as [E W].
  split; [exact E |].
  apply W; reflexivity.
Defined.
